(** * Virtio pmem character driver: model and properties

    Shallow embedding of [drivers/char/virtio_pmem/virtio_pmem_char.c] and
    of the structures of [virtio_pmem_char.h].

    - C integers are [Z] with the wrap-around written out: [u64] for
      [__u64], [size_t] and [unsigned long long], [s64] for [loff_t] and
      [ssize_t] (64-bit kernel).  Mixed comparisons and subtractions are
      unsigned, as the usual arithmetic conversions make them; signed
      addition wraps, as the kernel is built to have it.
    - The kernel services the driver calls ([ioremap], [kmalloc],
      [copy_to_user], ...) are not part of the driver: whether each one
      succeeds is an input ([kenv]), and every call is recorded in order
      ([kcall]) so that acquisition and release can be compared.
    - Physical memory is a function from addresses to bytes.
    - [pmem_mmap], [virtio_pmem_probe] and [init_vq] are not modelled. *)

From Stdlib Require Import ZArith Lia Bool List.
From Stdlib Require Import Init.Byte.
From stdpp Require Import base list sorting gmap.

Local Open Scope Z_scope.

(** ** Machine integers *)

Definition u64 (x : Z) : Z := x mod 2 ^ 64.
Definition s64 (x : Z) : Z := (x + 2 ^ 63) mod 2 ^ 64 - 2 ^ 63.

Definition LLONG_MAX : Z := 2 ^ 63 - 1.
Definition LLONG_MIN : Z := - 2 ^ 63.
Definition ULLONG_MAX : Z := 2 ^ 64 - 1.

Definition is_u64 (x : Z) : Prop := 0 <= x <= ULLONG_MAX.
Definition is_s64 (x : Z) : Prop := LLONG_MIN <= x <= LLONG_MAX.

(** ** Constants of the kernel headers

    [SEEK_*] are those of [linux/fs.h], the error numbers those of
    [asm-generic/errno-base.h]. *)

Definition SEEK_SET : Z := 0.
Definition SEEK_CUR : Z := 1.
Definition SEEK_END : Z := 2.

Definition ENOMEM : Z := 12.
Definition EFAULT : Z := 14.
Definition EINVAL : Z := 22.
Definition ESPIPE : Z := 29.

(** ** Data model ([virtio_pmem_char.h]) *)

(** A request is referred to by its address. *)
Definition handle := nat.

(** [struct virtio_pmem_request]: the request and response payloads are a
    number each ([req.type], [resp.ret]); the two wait queues are
    represented by the flags their waiters test. *)
Record virtio_pmem_request := {
  req_type : Z;
  resp_ret : Z;
  done : bool;
  wq_buf_avail : bool
}.

(** The single request queue: its ring size and the buffers the driver has
    added that the host has not returned yet. *)
Record virtqueue := {
  vq_num : nat;
  vq_inflight : list handle
}.

(** [struct virtio_pmem].  [req_vq] is [None] once the queues are deleted. *)
Record virtio_pmem := {
  req_vq : option virtqueue;
  req_list : list handle;
  start : Z;
  size : Z
}.

(** [struct file], reduced to the field the driver uses. *)
Record file := { f_pos : Z }.

(** ** [pmem_lseek]

    Returns the value the function returns and the file it leaves.  Both
    range tests compare a [loff_t] with the [__u64] size, hence unsigned. *)
Definition pmem_lseek (vpmem : virtio_pmem) (filp : file) (off whence : Z)
  : Z * file :=
  if whence =? SEEK_SET then
    if u64 off >=? size vpmem then (- ESPIPE, filp)
    else (off, {| f_pos := off |})
  else if whence =? SEEK_CUR then
    let newpos := s64 (f_pos filp + off) in
    if u64 newpos >=? size vpmem then (- ESPIPE, filp)
    else (newpos, {| f_pos := newpos |})
  else if whence =? SEEK_END then
    let newpos := s64 (size vpmem) in
    (newpos, {| f_pos := newpos |})
  else (- EINVAL, filp).

(** ** Kernel services seen from the driver *)

(** Whether the services the data path relies on succeed.  [copy_user_ok]
    stands for [copy_to_user] in a read and [copy_from_user] in a write
    returning zero (nothing left to copy). *)
Record kenv := {
  ioremap_ok : bool;
  kmalloc_ok : bool;
  copy_user_ok : bool
}.

(** The calls a data-path operation makes, in program order.  A mapping is
    named by the physical address it starts at. *)
Inductive kcall :=
| Kioremap (phys len : Z) (ok : bool)
| Kiounmap (phys : Z)
| Kkmalloc (len : Z) (ok : bool)
| Kkfree
| Kmemcpy_fromio (phys len : Z)
| Kmemcpy_toio (phys len : Z)
| Kcopy_to_user (len : Z) (ok : bool)
| Kcopy_from_user (len : Z) (ok : bool).

(** Mappings established and not yet unmapped after a sequence of calls. *)
Fixpoint live_mappings (cs : list kcall) (acc : list Z) : list Z :=
  match cs with
  | [] => acc
  | Kioremap p _ true :: cs' => live_mappings cs' (p :: acc)
  | Kiounmap p :: cs' =>
      live_mappings cs' (List.filter (fun q => negb (q =? p)) acc)
  | _ :: cs' => live_mappings cs' acc
  end.

(** Buffers allocated and not yet freed after a sequence of calls. *)
Fixpoint live_buffers (cs : list kcall) (acc : nat) : nat :=
  match cs with
  | [] => acc
  | Kkmalloc _ true :: cs' => live_buffers cs' (S acc)
  | Kkfree :: cs' => live_buffers cs' (Nat.pred acc)
  | _ :: cs' => live_buffers cs' acc
  end.

(** Physical memory. *)
Definition physmem := Z -> byte.

(** [memcpy_fromio]: the [len] bytes from [phys] on. *)
Definition read_bytes (m : physmem) (phys len : Z) : list byte :=
  map (fun i => m (phys + Z.of_nat i)) (seq 0 (Z.to_nat len)).

(** [memcpy_toio]: [bs] stored from [phys] on. *)
Definition write_bytes (m : physmem) (phys : Z) (bs : list byte) : physmem :=
  fun a =>
    if (phys <=? a) && (a <? phys + Z.of_nat (length bs))
    then nth (Z.to_nat (a - phys)) bs (m a)
    else m a.

(** What a read or a write leaves behind: the value returned, the file
    position, the bytes delivered to the caller (none unless
    [copy_to_user] completed), physical memory, and the calls made. *)
Record rw_result := {
  ret : Z;
  ppos : Z;
  ubuf : list byte;
  iomem : physmem;
  calls : list kcall
}.

(** ** [pmem_read] and [pmem_write] *)

(** The first statement of both: [size - pos] is computed on [__u64]. *)
Definition clamp_count (vpmem : virtio_pmem) (pos count : Z) : Z :=
  if count >? u64 (size vpmem - pos) then u64 (size vpmem - pos) else count.

Definition pmem_read (env : kenv) (vpmem : virtio_pmem) (m : physmem)
    (count pos : Z) : rw_result :=
  let count := clamp_count vpmem pos count in
  if count =? 0 then
    {| ret := 0; ppos := pos; ubuf := []; iomem := m; calls := [] |}
  else
    let map_start_addr := u64 (start vpmem + pos) in
    if negb (ioremap_ok env) then
      {| ret := - ENOMEM; ppos := pos; ubuf := []; iomem := m;
         calls := [Kioremap map_start_addr count false] |}
    else if negb (kmalloc_ok env) then
      (* count = -ENOMEM; goto out; *)
      {| ret := s64 (u64 (- ENOMEM)); ppos := pos; ubuf := []; iomem := m;
         calls := [Kioremap map_start_addr count true;
                   Kkmalloc count false;
                   Kiounmap map_start_addr] |}
    else
      let temp_buf := read_bytes m map_start_addr count in
      if negb (copy_user_ok env) then
        (* count = -EFAULT; goto out; *)
        {| ret := s64 (u64 (- EFAULT)); ppos := pos; ubuf := []; iomem := m;
           calls := [Kioremap map_start_addr count true;
                     Kkmalloc count true;
                     Kmemcpy_fromio map_start_addr count;
                     Kcopy_to_user count false;
                     Kiounmap map_start_addr;
                     Kkfree] |}
      else
        {| ret := s64 count; ppos := s64 (pos + count); ubuf := temp_buf;
           iomem := m;
           calls := [Kioremap map_start_addr count true;
                     Kkmalloc count true;
                     Kmemcpy_fromio map_start_addr count;
                     Kcopy_to_user count true;
                     Kiounmap map_start_addr;
                     Kkfree] |}.

(** In [pmem_write] the test of the allocation has no braces:

      if (!temp_buf)
              count = -ENOMEM;
              goto out;

    so [goto out] is taken whether or not the buffer was obtained, and
    [copy_from_user], [memcpy_toio] and [*ppos += count] are never
    reached.  [buf] is the caller's memory; the function never reads it. *)
Definition pmem_write (env : kenv) (vpmem : virtio_pmem) (m : physmem)
    (buf : list byte) (count pos : Z) : rw_result :=
  let count := clamp_count vpmem pos count in
  if count =? 0 then
    {| ret := 0; ppos := pos; ubuf := []; iomem := m; calls := [] |}
  else
    let map_start_addr := u64 (start vpmem + pos) in
    if negb (ioremap_ok env) then
      {| ret := - ENOMEM; ppos := pos; ubuf := []; iomem := m;
         calls := [Kioremap map_start_addr count false] |}
    else
      let temp_buf := kmalloc_ok env in   (* temp_buf != NULL *)
      let count' := if negb temp_buf then u64 (- ENOMEM) else count in
      (* goto out; *)
      {| ret := s64 count'; ppos := pos; ubuf := []; iomem := m;
         calls := [Kioremap map_start_addr count true;
                   Kkmalloc count temp_buf;
                   Kiounmap map_start_addr]
                  ++ (if temp_buf then [Kkfree] else []) |}.

(** [pmem_write] as its indentation reads, with the braces [pmem_read] has
    around the same branch.  This is not the driver's code: it is here
    only to measure what the missing braces cost. *)
Definition pmem_write_braced (env : kenv) (vpmem : virtio_pmem) (m : physmem)
    (buf : list byte) (count pos : Z) : rw_result :=
  let count := clamp_count vpmem pos count in
  if count =? 0 then
    {| ret := 0; ppos := pos; ubuf := []; iomem := m; calls := [] |}
  else
    let map_start_addr := u64 (start vpmem + pos) in
    if negb (ioremap_ok env) then
      {| ret := - ENOMEM; ppos := pos; ubuf := []; iomem := m;
         calls := [Kioremap map_start_addr count false] |}
    else if negb (kmalloc_ok env) then
      {| ret := s64 (u64 (- ENOMEM)); ppos := pos; ubuf := []; iomem := m;
         calls := [Kioremap map_start_addr count true;
                   Kkmalloc count false;
                   Kiounmap map_start_addr] |}
    else if negb (copy_user_ok env) then
      {| ret := s64 (u64 (- EFAULT)); ppos := pos; ubuf := []; iomem := m;
         calls := [Kioremap map_start_addr count true;
                   Kkmalloc count true;
                   Kcopy_from_user count false;
                   Kiounmap map_start_addr;
                   Kkfree] |}
    else
      let temp_buf := firstn (Z.to_nat count) buf in
      {| ret := s64 count; ppos := s64 (pos + count); ubuf := [];
         iomem := write_bytes m map_start_addr temp_buf;
         calls := [Kioremap map_start_addr count true;
                   Kkmalloc count true;
                   Kcopy_from_user count true;
                   Kmemcpy_toio map_start_addr count;
                   Kiounmap map_start_addr;
                   Kkfree] |}.

(** ** Device teardown *)

(** What [virtio_pmem_remove] can reach: the driver instance, the request
    records that exist (each owned by a caller waiting for [done]), and
    the state of the three kernel objects it acts on. *)
Record driver_state := {
  vpmem_dev : virtio_pmem;
  requests : gmap handle virtio_pmem_request;
  vdev_reset : bool;
  mem_region_reserved : bool;
  misc_registered : bool
}.

(** [vdev->config->del_vqs(vdev)]: the queues are freed.  The buffers still
    in them are not returned and no callback runs. *)
Definition del_vqs (s : driver_state) : driver_state :=
  {| vpmem_dev := {| req_vq := None;
                     req_list := req_list (vpmem_dev s);
                     start := start (vpmem_dev s);
                     size := size (vpmem_dev s) |};
     requests := requests s;
     vdev_reset := vdev_reset s;
     mem_region_reserved := mem_region_reserved s;
     misc_registered := misc_registered s |}.

Definition virtio_reset_device (s : driver_state) : driver_state :=
  {| vpmem_dev := vpmem_dev s;
     requests := requests s;
     vdev_reset := true;
     mem_region_reserved := mem_region_reserved s;
     misc_registered := misc_registered s |}.

Definition devm_release_mem_region (s : driver_state) : driver_state :=
  {| vpmem_dev := vpmem_dev s;
     requests := requests s;
     vdev_reset := vdev_reset s;
     mem_region_reserved := false;
     misc_registered := misc_registered s |}.

Definition misc_deregister (s : driver_state) : driver_state :=
  {| vpmem_dev := vpmem_dev s;
     requests := requests s;
     vdev_reset := vdev_reset s;
     mem_region_reserved := mem_region_reserved s;
     misc_registered := false |}.

Definition virtio_pmem_remove (s : driver_state) : driver_state :=
  misc_deregister (devm_release_mem_region (virtio_reset_device (del_vqs s))).

(** A request is QUEUED while the queue holds it and DEFERRED while it is
    linked in [req_list]; its caller is blocked until [done] is set. *)
Definition queued (s : driver_state) (h : handle) : Prop :=
  exists vq, req_vq (vpmem_dev s) = Some vq /\ In h (vq_inflight vq).

Definition deferred (s : driver_state) (h : handle) : Prop :=
  In h (req_list (vpmem_dev s)).

Definition blocked (s : driver_state) (h : handle) : Prop :=
  exists r, requests s !! h = Some r /\ done r = false.

(** ** Flush request engine *)

Module FlushEngine.

(** Modelled from the spec: [async_pmem_flush] and [virtio_pmem_host_ack]
    are declared in [virtio_pmem_char.h] and the latter is installed as
    the queue callback by [init_vq], but neither is defined in the
    driver.  The definitions below follow the specification's Command
    Channel and Flush Request Engine (submit, onHostSignal).  A step runs
    under the shared lock, hence atomically; payloads are opaque to the
    engine and left out. *)
Record engine := {
  capacity : nat;
  channel : list handle;
  deferred_list : list handle;
  notified : list handle;
  next : handle
}.

(** Modelled from the spec: the engine at initialization, the capacity of
    the channel fixed and nothing submitted. *)
Definition init (cap : nat) : engine :=
  {| capacity := cap; channel := []; deferred_list := [];
     notified := []; next := 0%nat |}.

(** Modelled from the spec: [offer] places the request into the channel
    unless capacity is exhausted. *)
Definition offer (cap : nat) (ch : list handle) (r : handle)
  : option (list handle) :=
  if (length ch <? cap)%nat then Some (ch ++ [r]) else None.

(** Modelled from the spec: [submit] constructs a request, offers it, and
    parks it at the tail of the deferred list when the channel is full.
    The request gets the next unused handle. *)
Definition submit (e : engine) : engine :=
  let r := next e in
  match offer (capacity e) (channel e) r with
  | Some ch =>
      {| capacity := capacity e; channel := ch;
         deferred_list := deferred_list e;
         notified := notified e; next := S r |}
  | None =>
      {| capacity := capacity e; channel := channel e;
         deferred_list := deferred_list e ++ [r];
         notified := notified e; next := S r |}
  end.

(** Modelled from the spec: [drainCompleted] returns the requests the
    host has finished, in host-completion order.  [fin] is what the host
    reports; only requests in flight can be finished, each once. *)
Definition drainCompleted (e : engine) (fin : list handle) : list handle :=
  filter (fun r => r ∈ channel e) (remove_dups fin).

(** Modelled from the spec: step 2 of [onHostSignal], oldest first while
    the channel has free capacity. *)
Fixpoint promote (cap : nat) (ch dl : list handle)
  : list handle * list handle :=
  match dl with
  | [] => (ch, [])
  | r :: dl' =>
      match offer cap ch r with
      | Some ch' => promote cap ch' dl'
      | None => (ch, dl)
      end
  end.

(** Modelled from the spec: [onHostSignal] marks each drained request
    complete and wakes its caller (one notification each), then promotes
    deferred requests into the freed slots. *)
Definition onHostSignal (e : engine) (fin : list handle) : engine :=
  let completed := drainCompleted e fin in
  let ch := list_difference (channel e) completed in
  let '(ch', dl') := promote (capacity e) ch (deferred_list e) in
  {| capacity := capacity e; channel := ch'; deferred_list := dl';
     notified := notified e ++ completed; next := next e |}.

(** Modelled from the spec: what can happen to the engine, a caller
    submitting or the host signalling with the requests it has finished.
    An interleaving is a list of these. *)
Inductive event :=
| Submit
| HostSignal (fin : list handle).

Definition step (e : engine) (ev : event) : engine :=
  match ev with
  | Submit => submit e
  | HostSignal fin => onHostSignal e fin
  end.

Definition run (e : engine) (evs : list event) : engine :=
  fold_left step evs e.

(** Modelled from the spec: the host acknowledges every request it has
    accepted, and signals. *)
Definition host_acks_all (e : engine) : engine :=
  onHostSignal e (channel e).

(** Modelled from the spec: the states of a request the engine can tell
    apart.  CREATED is a request the engine tracks nowhere; RETIRED, the
    caller releasing the record after it was woken, is outside the engine. *)
Inductive req_state := CREATED | QUEUED | DEFERRED | ACKED.

Definition state_of (e : engine) (r : handle) : req_state :=
  if decide (r ∈ notified e) then ACKED
  else if decide (r ∈ channel e) then QUEUED
  else if decide (r ∈ deferred_list e) then DEFERRED
  else CREATED.

(** Completion notifications delivered so far to the caller of [r]. *)
Definition notifications (e : engine) (r : handle) : nat :=
  length (filter (fun x => x = r) (notified e)).

(** Every request the engine holds or has completed. *)
Definition tracked (e : engine) : list handle :=
  channel e ++ deferred_list e ++ notified e.

(** What the lock maintains: each submitted request is tracked exactly
    once, the channel is within capacity, and requests are parked only
    while the channel is full. *)
Record engine_inv (e : engine) : Prop := {
  inv_nodup : NoDup (tracked e);
  inv_submitted : forall r, r ∈ tracked e <-> (r < next e)%nat;
  inv_capacity : (length (channel e) <= capacity e)%nat;
  inv_parked : deferred_list e <> [] ->
               length (channel e) = capacity e
}.

(** Submission order is kept: the deferred list is in order of
    submission and everything in the channel was submitted before
    anything parked. *)
Record engine_order (e : engine) : Prop := {
  ord_deferred : StronglySorted lt (deferred_list e);
  ord_channel : forall x y, x ∈ channel e -> y ∈ deferred_list e ->
                            (x < y)%nat
}.

End FlushEngine.

(** ** Vocabulary of the statements *)

(** The whence values [pmem_lseek] has a case for. *)
Definition whence_known (whence : Z) : bool :=
  (whence =? SEEK_SET) || (whence =? SEEK_CUR) || (whence =? SEEK_END).

(** The position [SEEK_SET] and [SEEK_CUR] aim at. *)
Definition seek_target (filp : file) (off whence : Z) : Z :=
  if whence =? SEEK_SET then off else s64 (f_pos filp + off).

(** Outcomes of the kernel services, read off the calls made. *)
Definition mapping_failed (cs : list kcall) : bool :=
  existsb (fun c => match c with Kioremap _ _ false => true | _ => false end) cs.

Definition alloc_failed (cs : list kcall) : bool :=
  existsb (fun c => match c with Kkmalloc _ false => true | _ => false end) cs.

Definition copy_failed (cs : list kcall) : bool :=
  existsb (fun c => match c with
                    | Kcopy_to_user _ false | Kcopy_from_user _ false => true
                    | _ => false
                    end) cs.

(** Every service succeeds. *)
Definition all_ok : kenv :=
  {| ioremap_ok := true; kmalloc_ok := true; copy_user_ok := true |}.

(** A four-byte region at physical address 4096, and a memory holding
    zeroes. *)
Definition small_region : virtio_pmem :=
  {| req_vq := None; req_list := []; start := 4096; size := 4 |}.

Definition zero_mem : physmem := fun _ => x00.

(** Five flush requests on a queue of two slots, none acknowledged yet:
    requests 0 and 1 are in the queue, 2, 3 and 4 are parked. *)
Definition pending_request : virtio_pmem_request :=
  {| req_type := 0; resp_ret := 0; done := false; wq_buf_avail := false |}.

Definition teardown_scenario : driver_state :=
  {| vpmem_dev := {| req_vq := Some {| vq_num := 2; vq_inflight := [0; 1]%nat |};
                     req_list := [2; 3; 4]%nat;
                     start := 4096; size := 4 |};
     requests := list_to_map [(0, pending_request); (1, pending_request);
                              (2, pending_request); (3, pending_request);
                              (4, pending_request)]%nat;
     vdev_reset := false;
     mem_region_reserved := true;
     misc_registered := true |}.

(** ** Device probe *)

(** What [virtio_pmem_probe] finds in the kernel and on the device:
    whether the transport gives access to the configuration space, whether
    the instance can be allocated, what [virtio_find_single_vq] returns (an
    error pointer, given by the negative error number it encodes, or a
    queue), the two configuration fields, whether the memory region could
    be reserved, and what [misc_register] returns (0 or a negative error
    number). *)
Record probe_env := {
  config_get : bool;
  devm_kzalloc_ok : bool;
  find_single_vq : Z + virtqueue;
  config_start : Z;
  config_size : Z;
  request_mem_region_ok : bool;
  misc_register_ret : Z
}.

(** An error pointer encodes an error number between -4095 and -1, and
    [misc_register] returns 0 or a negative error number. *)
Definition probe_env_wf (env : probe_env) : Prop :=
  match find_single_vq env with
  | inl err => -4095 <= err <= -1
  | inr _ => True
  end /\ misc_register_ret env <= 0.

(** The instance as [devm_kzalloc] returns it: zero-filled. *)
Definition zeroed_vpmem : virtio_pmem :=
  {| req_vq := None; req_list := []; start := 0; size := 0 |}.

(** [init_vq]: returns the error of the queue lookup, or initialises the
    deferred list and returns 0.  On failure [req_vq] is left holding the
    error pointer, which is no queue ([None]); the list is not
    initialised. *)
Definition init_vq (env : probe_env) (vpmem : virtio_pmem)
  : Z * virtio_pmem :=
  match find_single_vq env with
  | inl err =>
      (err, {| req_vq := None; req_list := req_list vpmem;
               start := start vpmem; size := size vpmem |})
  | inr vq =>
      (0, {| req_vq := Some vq; req_list := [];
             start := start vpmem; size := size vpmem |})
  end.

(** [virtio_pmem_probe] on a freshly loaded module ([vpmem] is [NULL],
    nothing reserved or registered).  Returns the value the function
    returns and the driver state it leaves: [None] while [vpmem] is still
    [NULL].  No flush request exists yet. *)
Definition virtio_pmem_probe (env : probe_env) : Z * option driver_state :=
  if negb (config_get env) then (- EINVAL, None)
  else if negb (devm_kzalloc_ok env) then (- ENOMEM, None)
  else
    let '(err, vpmem) := init_vq env zeroed_vpmem in
    if negb (err =? 0) then
      (err, Some {| vpmem_dev := vpmem; requests := ∅;
                    vdev_reset := false;
                    mem_region_reserved := false;
                    misc_registered := false |})
    else
      let vpmem := {| req_vq := req_vq vpmem; req_list := req_list vpmem;
                      start := u64 (config_start env);
                      size := u64 (config_size env) |} in
      let req := request_mem_region_ok env in
      let ret := misc_register_ret env in
      (ret, Some {| vpmem_dev := vpmem; requests := ∅;
                    vdev_reset := false;
                    mem_region_reserved := req;
                    misc_registered := (ret =? 0) |}).

(** A device that probes without error: a queue of two slots and a region
    of four bytes at 4096. *)
Definition good_probe_env : probe_env :=
  {| config_get := true; devm_kzalloc_ok := true;
     find_single_vq := inr {| vq_num := 2; vq_inflight := [] |};
     config_start := 4096; config_size := 4;
     request_mem_region_ok := false; misc_register_ret := 0 |}.

(** A memory whose byte at each address is the address modulo 256. *)
Definition ramp_mem : physmem :=
  fun a => match Byte.of_N (Z.to_N (a mod 256)) with
           | Some b => b
           | None => x00
           end.

(** The clamped length as the specification words it: nothing at or past
    the end of the region, else the requested length cut to what remains. *)
Definition spec_clamped_length (size offset length : Z) : Z :=
  if offset >=? size then 0 else Z.min length (size - offset).

(** [pmem_lseek] takes one of its error returns: the resulting position
    fails the range test of [SEEK_SET] or [SEEK_CUR], or the whence value
    has no case. *)
Definition seek_rejected (vpmem : virtio_pmem) (filp : file) (off whence : Z)
  : bool :=
  if (whence =? SEEK_SET) || (whence =? SEEK_CUR)
  then u64 (seek_target filp off whence) >=? size vpmem
  else negb (whence_known whence).

(** * Properties *)

(** ** Machine integers *)

Ltac wrap_arith :=
  unfold u64, s64, is_u64, is_s64, LLONG_MAX, LLONG_MIN, ULLONG_MAX in *;
  change (2 ^ 64) with 18446744073709551616 in *;
  change (2 ^ 63) with 9223372036854775808 in *;
  Z.div_mod_to_equations; lia.

Lemma u64_range x : 0 <= u64 x <= ULLONG_MAX.
Proof. wrap_arith. Qed.

Lemma s64_range x : is_s64 (s64 x).
Proof. wrap_arith. Qed.

Lemma u64_small x : is_u64 x -> u64 x = x.
Proof. intros. wrap_arith. Qed.

Lemma s64_small x : is_s64 x -> s64 x = x.
Proof. intros. wrap_arith. Qed.

Lemma u64_of_negative x : is_s64 x -> x < 0 -> u64 x = x + 2 ^ 64.
Proof. intros. wrap_arith. Qed.

Lemma s64_of_u64_neg e : 0 < e <= 2 ^ 63 -> s64 (u64 (- e)) = - e.
Proof. intros. wrap_arith. Qed.

(** A signed offset passes the unsigned range test of [pmem_lseek] exactly
    when it lies in the region, provided the size itself fits [loff_t]. *)
Lemma seek_range_test sz x :
  0 <= sz <= LLONG_MAX -> is_s64 x ->
  (u64 x >=? sz) = false <-> 0 <= x < sz.
Proof.
  intros Hsz Hx. rewrite Z.geb_leb, Z.leb_gt.
  destruct (Z.neg_nonneg_cases x) as [Hneg|Hpos].
  - rewrite u64_of_negative by assumption.
    unfold is_s64, LLONG_MAX, LLONG_MIN in *. lia.
  - rewrite u64_small by (unfold is_u64, is_s64, LLONG_MAX, ULLONG_MAX in *; lia).
    lia.
Qed.

(** From a non-negative position the addition of [SEEK_CUR] lands in the
    region only if the exact sum does. *)
Lemma seek_cur_no_wrap sz pos off :
  0 <= sz <= LLONG_MAX -> 0 <= pos <= LLONG_MAX -> is_s64 off ->
  0 <= s64 (pos + off) < sz <-> 0 <= pos + off < sz.
Proof. intros. wrap_arith. Qed.

(** ** Seeking *)

Lemma pmem_lseek_set_cur vpmem filp off whence :
  0 <= size vpmem <= LLONG_MAX -> is_s64 off ->
  whence = SEEK_SET \/ whence = SEEK_CUR ->
  let target := seek_target filp off whence in
  pmem_lseek vpmem filp off whence =
    if (0 <=? target) && (target <? size vpmem)
    then (target, {| f_pos := target |})
    else (- ESPIPE, filp).
Proof.
  intros Hsz Hoff Hw target.
  assert (Ht : is_s64 target).
  { unfold target, seek_target. destruct (whence =? SEEK_SET); [assumption|].
    apply s64_range. }
  pose proof (seek_range_test (size vpmem) target Hsz Ht) as Htest.
  assert (Hl : pmem_lseek vpmem filp off whence =
               if u64 target >=? size vpmem then (- ESPIPE, filp)
               else (target, {| f_pos := target |})).
  { unfold pmem_lseek, target, seek_target.
    destruct Hw as [-> | ->]; reflexivity. }
  rewrite Hl.
  destruct (u64 target >=? size vpmem) eqn:E.
  - destruct ((0 <=? target) && (target <? size vpmem)) eqn:E'; [|reflexivity].
    apply andb_prop in E' as [?%Z.leb_le ?%Z.ltb_lt].
    assert (false = true) by (symmetry; apply Htest; lia). discriminate.
  - destruct Htest as [Hin _]. specialize (Hin eq_refl).
    replace ((0 <=? target) && (target <? size vpmem)) with true; [reflexivity|].
    symmetry. apply andb_true_intro. split; [apply Z.leb_le|apply Z.ltb_lt]; lia.
Qed.

Lemma pmem_lseek_end vpmem filp off :
  0 <= size vpmem <= LLONG_MAX ->
  pmem_lseek vpmem filp off SEEK_END = (size vpmem, {| f_pos := size vpmem |}).
Proof.
  intros Hsz. unfold pmem_lseek. simpl.
  rewrite s64_small; [reflexivity|].
  unfold is_s64, LLONG_MIN, LLONG_MAX in *. lia.
Qed.

Lemma pmem_lseek_unknown vpmem filp off whence :
  whence_known whence = false ->
  pmem_lseek vpmem filp off whence = (- EINVAL, filp).
Proof.
  unfold whence_known, pmem_lseek. intros H.
  apply orb_false_elim in H as [H ->]. apply orb_false_elim in H as [-> ->].
  reflexivity.
Qed.

(** C6, as stated, fails: a [SEEK_SET] to the position [size] is refused,
    but with [-ESPIPE], which is not the invalid-argument error [-EINVAL]. *)
Lemma pmem_lseek_out_of_range_not_einval :
  ~ (4 >= size small_region ->
     fst (pmem_lseek small_region {| f_pos := 0 |} 4 SEEK_SET) = - EINVAL).
Proof. intros H. specialize (H ltac:(simpl; lia)). vm_compute in H. discriminate. Qed.

(** C6, amended: for a region whose size fits a signed 64-bit offset,
    [SEEK_SET] and [SEEK_CUR] succeed, setting and returning the resulting
    position, exactly when that position (the delta, or position plus delta
    on 64 bits) satisfies [0 <= pos < size], and otherwise fail with
    [-ESPIPE] (illegal seek); [SEEK_END] sets the position to exactly
    [size]; any other whence fails with [-EINVAL] (invalid argument). *)
Theorem pmem_lseek_outcomes vpmem filp off whence :
  0 <= size vpmem <= LLONG_MAX -> is_s64 off ->
  let r := pmem_lseek vpmem filp off whence in
  let target := seek_target filp off whence in
  (whence = SEEK_SET \/ whence = SEEK_CUR ->
     (0 <= fst r <-> 0 <= target < size vpmem) /\
     (0 <= target < size vpmem -> r = (target, {| f_pos := target |})) /\
     (~ 0 <= target < size vpmem -> r = (- ESPIPE, filp))) /\
  (whence = SEEK_END -> r = (size vpmem, {| f_pos := size vpmem |})) /\
  (whence_known whence = false -> r = (- EINVAL, filp)).
Proof.
  intros Hsz Hoff r target. split; [|split].
  - intros Hw. unfold r. rewrite pmem_lseek_set_cur by assumption.
    fold target.
    destruct ((0 <=? target) && (target <? size vpmem)) eqn:E.
    + apply andb_prop in E as [?%Z.leb_le ?%Z.ltb_lt].
      split; [simpl; lia|]. split; [reflexivity|lia].
    + assert (Hout : ~ 0 <= target < size vpmem).
      { apply andb_false_iff in E as [E%Z.leb_gt | E%Z.ltb_ge]; lia. }
      split; [unfold ESPIPE; simpl; lia|]. split; [contradiction|reflexivity].
  - intros ->. apply pmem_lseek_end. assumption.
  - apply pmem_lseek_unknown.
Qed.

Lemma pmem_lseek_outcomes_witness :
  pmem_lseek small_region {| f_pos := 1 |} 2 SEEK_CUR = (3, {| f_pos := 3 |}) /\
  pmem_lseek small_region {| f_pos := 1 |} 9 SEEK_END = (4, {| f_pos := 4 |}).
Proof.
  pose proof (pmem_lseek_outcomes small_region {| f_pos := 1 |} 2 SEEK_CUR
                ltac:(vm_compute; split; discriminate)
                ltac:(vm_compute; split; discriminate)) as H.
  pose proof (pmem_lseek_outcomes small_region {| f_pos := 1 |} 9 SEEK_END
                ltac:(vm_compute; split; discriminate)
                ltac:(vm_compute; split; discriminate)) as H'.
  destruct H as [Hsc _]. destruct (Hsc (or_intror eq_refl)) as [_ [Hin _]].
  destruct H' as [_ [Hend _]].
  split; [|exact (Hend eq_refl)].
  apply Hin. vm_compute. split; [discriminate|reflexivity].
Defined.

(** When the size of the region fits [loff_t], a negative return leaves
    the stored file position as it was. *)
Lemma pmem_lseek_negative_keeps_position vpmem filp off whence :
  0 <= size vpmem <= LLONG_MAX -> is_s64 off ->
  fst (pmem_lseek vpmem filp off whence) < 0 ->
  snd (pmem_lseek vpmem filp off whence) = filp.
Proof.
  intros Hsz Hoff.
  destruct (whence_known whence) eqn:Hk.
  - unfold whence_known in Hk.
    apply orb_prop in Hk as [Hk | Hend%Z.eqb_eq].
    + assert (Hw : whence = SEEK_SET \/ whence = SEEK_CUR).
      { apply orb_prop in Hk as [?%Z.eqb_eq | ?%Z.eqb_eq]; auto. }
      rewrite pmem_lseek_set_cur by assumption.
      destruct ((0 <=? _) && _) eqn:E; [|reflexivity].
      apply andb_prop in E as [?%Z.leb_le _]. simpl. lia.
    + subst. rewrite pmem_lseek_end by assumption. simpl. lia.
  - rewrite pmem_lseek_unknown by assumption. reflexivity.
Qed.

(** With a size that fits [loff_t] a seek returns a negative value
    exactly when it takes an error return. *)
Lemma seek_rejected_negative vpmem filp off whence :
  0 <= size vpmem <= LLONG_MAX -> is_s64 off ->
  fst (pmem_lseek vpmem filp off whence) < 0 <->
  seek_rejected vpmem filp off whence = true.
Proof.
  intros Hsz Hoff. unfold seek_rejected.
  destruct (whence_known whence) eqn:Hk.
  - unfold whence_known in Hk.
    destruct ((whence =? SEEK_SET) || (whence =? SEEK_CUR)) eqn:Hsc.
    + assert (Hw : whence = SEEK_SET \/ whence = SEEK_CUR).
      { apply orb_prop in Hsc as [?%Z.eqb_eq | ?%Z.eqb_eq]; auto. }
      rewrite pmem_lseek_set_cur by assumption.
      set (target := seek_target filp off whence).
      assert (Ht : is_s64 target).
      { unfold target, seek_target.
        destruct (whence =? SEEK_SET); [assumption|apply s64_range]. }
      pose proof (seek_range_test (size vpmem) target Hsz Ht) as Htest.
      destruct ((0 <=? target) && (target <? size vpmem)) eqn:E.
      * apply andb_prop in E as [?%Z.leb_le ?%Z.ltb_lt].
        replace (u64 target >=? size vpmem) with false
          by (symmetry; apply Htest; lia).
        cbn [fst]. split; [lia|discriminate].
      * destruct (u64 target >=? size vpmem) eqn:E'.
        -- unfold ESPIPE. cbn [fst]. split; [reflexivity|lia].
        -- destruct Htest as [Hin _]. specialize (Hin eq_refl).
           apply andb_false_iff in E as [E%Z.leb_gt | E%Z.ltb_ge]; lia.
    + cbn [orb] in Hk. apply Z.eqb_eq in Hk. subst whence.
      rewrite pmem_lseek_end by assumption. cbn. split; [lia|discriminate].
  - assert (Hsc : (whence =? SEEK_SET) || (whence =? SEEK_CUR) = false).
    { unfold whence_known in Hk. apply orb_false_elim in Hk as [Hk _].
      exact Hk. }
    rewrite Hsc, pmem_lseek_unknown by assumption.
    unfold EINVAL. cbn. split; [reflexivity|lia].
Qed.

(** C9: whenever a seek takes an error return (the resulting position
    fails the range test of [SEEK_SET] or [SEEK_CUR], or the whence value
    is not recognised) it returns [-ESPIPE] or [-EINVAL] and the stored
    file position is left as it was; otherwise the position stored is the
    value returned.  This holds for every size of the region; when the
    size fits [loff_t] the error returns are exactly the negative
    returns. *)
Theorem pmem_lseek_failure_keeps_position vpmem filp off whence :
  let r := pmem_lseek vpmem filp off whence in
  (seek_rejected vpmem filp off whence = true ->
     snd r = filp /\ (fst r = - ESPIPE \/ fst r = - EINVAL)) /\
  (seek_rejected vpmem filp off whence = false ->
     snd r = {| f_pos := fst r |}) /\
  (0 <= size vpmem <= LLONG_MAX -> is_s64 off ->
     (fst r < 0 <-> seek_rejected vpmem filp off whence = true)).
Proof.
  intros r. split; [|split].
  - unfold r, seek_rejected, whence_known, seek_target, pmem_lseek.
    destruct (whence =? SEEK_SET); cbn [orb].
    + intros ->. cbn. auto.
    + destruct (whence =? SEEK_CUR); cbn [orb].
      * intros ->. cbn. auto.
      * destruct (whence =? SEEK_END); [discriminate|]. cbn. auto.
  - unfold r, seek_rejected, whence_known, seek_target, pmem_lseek.
    destruct (whence =? SEEK_SET); cbn [orb].
    + intros ->. reflexivity.
    + destruct (whence =? SEEK_CUR); cbn [orb].
      * intros ->. reflexivity.
      * destruct (whence =? SEEK_END); [reflexivity|discriminate].
  - apply seek_rejected_negative.
Qed.

Lemma pmem_lseek_failure_keeps_position_witness :
  snd (pmem_lseek small_region {| f_pos := 3 |} 1 SEEK_CUR) = {| f_pos := 3 |} /\
  (fst (pmem_lseek small_region {| f_pos := 3 |} 1 SEEK_CUR) < 0 <->
   seek_rejected small_region {| f_pos := 3 |} 1 SEEK_CUR = true).
Proof.
  pose proof (pmem_lseek_failure_keeps_position
                small_region {| f_pos := 3 |} 1 SEEK_CUR) as (Hrej & _ & Hneg).
  split.
  - apply Hrej. vm_compute. reflexivity.
  - apply Hneg; vm_compute; split; discriminate.
Defined.

(** ** Reading *)

(** Inside the region the unsigned subtraction does not wrap and the clamp
    is the minimum of the request and what remains. *)
Lemma clamp_count_in_range vpmem pos count :
  0 <= pos <= size vpmem -> size vpmem <= ULLONG_MAX ->
  clamp_count vpmem pos count = Z.min count (size vpmem - pos).
Proof.
  intros Hpos Hsz. unfold clamp_count.
  rewrite u64_small by (unfold is_u64; lia).
  destruct (count >? size vpmem - pos) eqn:E.
  - apply Z.gtb_lt in E. lia.
  - rewrite Z.gtb_ltb in E. apply Z.ltb_ge in E. lia.
Qed.

Lemma length_read_bytes m phys len :
  length (read_bytes m phys len) = Z.to_nat len.
Proof. unfold read_bytes. rewrite length_map, length_seq. reflexivity. Qed.

(** [pmem_read] on a position of the region, with the integer conversions
    resolved. *)
Lemma pmem_read_in_range env vpmem m count pos :
  0 <= size vpmem <= LLONG_MAX -> 0 <= pos <= size vpmem -> is_u64 count ->
  let c := Z.min count (size vpmem - pos) in
  let a := u64 (start vpmem + pos) in
  pmem_read env vpmem m count pos =
    if c =? 0 then
      {| ret := 0; ppos := pos; ubuf := []; iomem := m; calls := [] |}
    else if negb (ioremap_ok env) then
      {| ret := - ENOMEM; ppos := pos; ubuf := []; iomem := m;
         calls := [Kioremap a c false] |}
    else if negb (kmalloc_ok env) then
      {| ret := - ENOMEM; ppos := pos; ubuf := []; iomem := m;
         calls := [Kioremap a c true; Kkmalloc c false; Kiounmap a] |}
    else if negb (copy_user_ok env) then
      {| ret := - EFAULT; ppos := pos; ubuf := []; iomem := m;
         calls := [Kioremap a c true; Kkmalloc c true; Kmemcpy_fromio a c;
                   Kcopy_to_user c false; Kiounmap a; Kkfree] |}
    else
      {| ret := c; ppos := pos + c; ubuf := read_bytes m a c; iomem := m;
         calls := [Kioremap a c true; Kkmalloc c true; Kmemcpy_fromio a c;
                   Kcopy_to_user c true; Kiounmap a; Kkfree] |}.
Proof.
  intros Hsz Hpos Hcount c a. unfold pmem_read.
  rewrite clamp_count_in_range
    by (unfold LLONG_MAX, ULLONG_MAX in *; lia).
  fold c. fold a.
  assert (Hc : 0 <= c <= LLONG_MAX) by (unfold is_u64 in *; lia).
  rewrite (s64_small c) by (unfold is_s64, LLONG_MIN, LLONG_MAX in *; lia).
  rewrite (s64_small (pos + c))
    by (unfold is_s64, LLONG_MIN, LLONG_MAX in *; lia).
  rewrite !s64_of_u64_neg by (vm_compute; split; [reflexivity|discriminate]).
  reflexivity.
Qed.

Lemma live_mappings_unmap a :
  List.filter (fun q => negb (q =? a)) [a] = [].
Proof. cbn. rewrite Z.eqb_refl. reflexivity. Qed.

(** C7: on a read inside the region with a non-zero clamped length, the
    result is [-ENOMEM] exactly when the mapping or the buffer could not be
    obtained, [-EFAULT] exactly when the copy to the caller failed, and
    whatever the outcome no mapping and no buffer is left behind. *)
Theorem pmem_read_failures_and_release env vpmem m count pos :
  0 <= size vpmem <= LLONG_MAX -> 0 <= pos < size vpmem ->
  0 < count <= ULLONG_MAX ->
  let r := pmem_read env vpmem m count pos in
  (ret r = - ENOMEM <->
     mapping_failed (calls r) = true \/ alloc_failed (calls r) = true) /\
  (ret r = - ENOMEM <-> ioremap_ok env = false \/ kmalloc_ok env = false) /\
  (ret r = - EFAULT <-> copy_failed (calls r) = true) /\
  (ret r = - EFAULT <->
     ioremap_ok env = true /\ kmalloc_ok env = true /\ copy_user_ok env = false) /\
  live_mappings (calls r) [] = [] /\
  live_buffers (calls r) 0 = 0%nat.
Proof.
  intros Hsz Hpos Hcount r. unfold r.
  rewrite pmem_read_in_range by (unfold is_u64; lia).
  set (c := Z.min count (size vpmem - pos)).
  assert (Hc : 0 < c) by (unfold c; lia).
  replace (c =? 0) with false by (symmetry; apply Z.eqb_neq; lia).
  unfold ENOMEM, EFAULT.
  destruct env as [[] [] []];
    cbn [negb ioremap_ok kmalloc_ok copy_user_ok ret calls
         mapping_failed alloc_failed copy_failed existsb orb
         live_mappings live_buffers Nat.pred];
    rewrite ?live_mappings_unmap;
    (repeat split; try reflexivity; try discriminate; try lia;
     try (intros [? | ?]; discriminate);
     try (intros (? & ? & ?); discriminate);
     try (right; reflexivity); try (left; reflexivity)).
Qed.

Lemma pmem_read_failures_and_release_witness :
  let r := pmem_read {| ioremap_ok := true; kmalloc_ok := false;
                        copy_user_ok := true |} small_region zero_mem 8 1 in
  ret r = - ENOMEM /\ live_mappings (calls r) [] = [].
Proof.
  pose proof (pmem_read_failures_and_release
                {| ioremap_ok := true; kmalloc_ok := false;
                   copy_user_ok := true |} small_region zero_mem 8 1
                ltac:(vm_compute; split; discriminate)
                ltac:(vm_compute; split; [discriminate|reflexivity])
                ltac:(vm_compute; split; [reflexivity|discriminate]))
    as (_ & Henv & _ & _ & Hmap & _).
  split; [apply Henv; right; reflexivity|exact Hmap].
Defined.

(** C10: a read on a position of the region that succeeds advances the
    file position by the number of bytes it returns; one that fails with
    [-ENOMEM] or [-EFAULT] leaves the position where it was. *)
Theorem pmem_read_position env vpmem m count pos :
  0 <= size vpmem <= LLONG_MAX -> 0 <= pos <= size vpmem -> is_u64 count ->
  let r := pmem_read env vpmem m count pos in
  (0 <= ret r ->
     ppos r = pos + ret r /\ Z.of_nat (length (ubuf r)) = ret r) /\
  (ret r = - ENOMEM \/ ret r = - EFAULT -> ppos r = pos) /\
  (0 <= ret r \/ ret r = - ENOMEM \/ ret r = - EFAULT).
Proof.
  intros Hsz Hpos Hcount r. unfold r.
  rewrite pmem_read_in_range by assumption.
  set (c := Z.min count (size vpmem - pos)).
  assert (Hc : 0 <= c) by (unfold c, is_u64 in *; lia).
  unfold ENOMEM, EFAULT.
  destruct (c =? 0) eqn:E0;
    [|apply Z.eqb_neq in E0; destruct env as [[] [] []]];
    cbn [negb ioremap_ok kmalloc_ok copy_user_ok ret ppos ubuf length];
    rewrite ?length_read_bytes;
    (split; [intros ?; try lia|split; [intros ?; try lia; try reflexivity|lia]]).
Qed.

Lemma pmem_read_position_witness :
  let r := pmem_read all_ok small_region zero_mem 8 1 in
  ppos r = 1 + ret r /\ Z.of_nat (length (ubuf r)) = ret r.
Proof.
  pose proof (pmem_read_position all_ok small_region zero_mem 8 1
                ltac:(vm_compute; split; discriminate)
                ltac:(vm_compute; split; discriminate)
                ltac:(vm_compute; split; discriminate)) as (Hok & _ & _).
  apply Hok. vm_compute. discriminate.
Defined.

(** Where C5 holds: up to the end of the region a read returns at most
    what remains, and nothing at the end itself. *)
Lemma pmem_read_clamped env vpmem m count pos :
  0 <= size vpmem <= LLONG_MAX -> 0 <= pos <= size vpmem -> is_u64 count ->
  let r := pmem_read env vpmem m count pos in
  ret r <= size vpmem - pos /\ (pos = size vpmem -> ret r = 0 /\ ubuf r = []).
Proof.
  intros Hsz Hpos Hcount r. unfold r.
  rewrite pmem_read_in_range by assumption.
  set (c := Z.min count (size vpmem - pos)).
  assert (Hc : 0 <= c <= size vpmem - pos) by (unfold c, is_u64 in *; lia).
  unfold ENOMEM, EFAULT.
  destruct (c =? 0) eqn:E0;
    [|apply Z.eqb_neq in E0; destruct env as [[] [] []]];
    cbn [negb ioremap_ok kmalloc_ok copy_user_ok ret ubuf];
    (split; [lia|intros ->; try (split; reflexivity); lia]).
Qed.

(** Past the end of the region [size - pos] wraps to a large unsigned
    value and the request is not clamped at all. *)
Lemma clamp_count_past_end vpmem pos count :
  0 <= size vpmem -> size vpmem < pos <= LLONG_MAX ->
  0 <= count <= LLONG_MAX ->
  clamp_count vpmem pos count = count.
Proof.
  intros Hsz Hpos Hcount. unfold clamp_count.
  assert (Hu : u64 (size vpmem - pos) = size vpmem - pos + 2 ^ 64).
  { apply u64_of_negative; unfold is_s64, LLONG_MIN, LLONG_MAX in *; lia. }
  rewrite Hu.
  destruct (count >? _) eqn:E; [|reflexivity].
  apply Z.gtb_lt in E. unfold LLONG_MAX in *. lia.
Qed.

(** C5, on the code: a read of one byte at offset 5 of a four-byte region
    is not cut to zero bytes.  It maps the byte at [start + 5], outside
    the region, hands it to the caller and returns 1. *)
Theorem pmem_read_past_end_transfers :
  let r := pmem_read all_ok small_region zero_mem 1 5 in
  5 >= size small_region /\
  ret r = 1 /\ ubuf r = [x00] /\ ppos r = 6 /\
  calls r = [Kioremap 4101 1 true; Kkmalloc 1 true; Kmemcpy_fromio 4101 1;
             Kcopy_to_user 1 true; Kiounmap 4101; Kkfree].
Proof. vm_compute. repeat split; discriminate. Qed.

(** ** Zero-length transfers *)

Lemma clamp_count_zero_iff vpmem pos count :
  clamp_count vpmem pos count = 0 <->
  count = 0 \/ (0 < count /\ u64 (size vpmem - pos) = 0).
Proof.
  unfold clamp_count. pose proof (u64_range (size vpmem - pos)).
  destruct (count >? _) eqn:E.
  - apply Z.gtb_lt in E. lia.
  - rewrite Z.gtb_ltb in E. apply Z.ltb_ge in E. lia.
Qed.

(** When the count as the driver clamps it is zero, a read or a write
    returns 0, moves no byte and calls no kernel service; in particular it
    maps nothing. *)
Lemma zero_length_transfer_maps_nothing env vpmem m buf count pos :
  clamp_count vpmem pos count = 0 ->
  let r := pmem_read env vpmem m count pos in
  let w := pmem_write env vpmem m buf count pos in
  (ret r = 0 /\ ubuf r = [] /\ ppos r = pos /\ calls r = []) /\
  (ret w = 0 /\ iomem w = m /\ ppos w = pos /\ calls w = []).
Proof.
  intros Hz r w. unfold r, w, pmem_read, pmem_write. rewrite Hz.
  cbn. repeat split.
Qed.

(** At a position of the region the driver's clamp is the specified one,
    so there a transfer of specified length zero maps nothing. *)
Lemma clamp_count_spec vpmem pos count :
  0 <= pos <= size vpmem -> size vpmem <= ULLONG_MAX -> 0 <= count ->
  clamp_count vpmem pos count = spec_clamped_length (size vpmem) pos count.
Proof.
  intros Hpos Hsz Hcount. rewrite clamp_count_in_range by assumption.
  unfold spec_clamped_length.
  destruct (pos >=? size vpmem) eqn:E; [|reflexivity].
  rewrite Z.geb_leb in E. apply Z.leb_le in E. lia.
Qed.

Lemma zero_length_in_region_maps_nothing env vpmem m buf count pos :
  0 <= pos <= size vpmem -> size vpmem <= ULLONG_MAX -> 0 <= count ->
  spec_clamped_length (size vpmem) pos count = 0 ->
  calls (pmem_read env vpmem m count pos) = [] /\
  calls (pmem_write env vpmem m buf count pos) = [].
Proof.
  intros Hpos Hsz Hcount Hz.
  rewrite <- clamp_count_spec in Hz by assumption.
  destruct (zero_length_transfer_maps_nothing env vpmem m buf count pos Hz)
    as ((_ & _ & _ & Hr) & (_ & _ & _ & Hw)).
  split; assumption.
Qed.

(** C8, on the code: at offset 5 of a four-byte region nothing remains, so
    the clamped length of a one-byte transfer is zero; yet the read and
    the write each map one byte at [start + 5] and return 1, the read
    handing that byte to the caller. *)
Theorem zero_length_past_end_maps :
  let r := pmem_read all_ok small_region zero_mem 1 5 in
  let w := pmem_write all_ok small_region zero_mem [x01] 1 5 in
  spec_clamped_length (size small_region) 5 1 = 0 /\
  ret r = 1 /\ ubuf r = [x00] /\ mapping_failed (calls r) = false /\
  hd_error (calls r) = Some (Kioremap 4101 1 true) /\
  ret w = 1 /\
  calls w = [Kioremap 4101 1 true; Kkmalloc 1 true; Kiounmap 4101; Kkfree].
Proof. vm_compute. repeat split. Qed.

(** ** Writing *)

(** Whatever its arguments, [pmem_write] leaves physical memory and the
    file position as they were, and never calls [copy_from_user] or
    [memcpy_toio]. *)
Lemma pmem_write_never_stores env vpmem m buf count pos :
  let w := pmem_write env vpmem m buf count pos in
  iomem w = m /\ ppos w = pos /\
  forallb (fun c => match c with
                    | Kcopy_from_user _ _ | Kmemcpy_toio _ _ => false
                    | _ => true
                    end) (calls w) = true.
Proof.
  unfold pmem_write.
  destruct (clamp_count vpmem pos count =? 0); [cbn; auto|].
  destruct env as [[] [] ?]; cbn; auto.
Qed.

(** Still it reports the clamped count as written when both acquisitions
    succeed. *)
Lemma pmem_write_in_range_ret env vpmem m buf count pos :
  0 <= size vpmem <= LLONG_MAX -> 0 <= pos <= size vpmem -> is_u64 count ->
  ioremap_ok env = true -> kmalloc_ok env = true ->
  ret (pmem_write env vpmem m buf count pos) = Z.min count (size vpmem - pos).
Proof.
  intros Hsz Hpos Hcount Hio Hk. unfold pmem_write.
  rewrite clamp_count_in_range by (unfold LLONG_MAX, ULLONG_MAX in *; lia).
  set (c := Z.min count (size vpmem - pos)).
  assert (Hc : 0 <= c <= LLONG_MAX) by (unfold c, is_u64 in *; lia).
  destruct (c =? 0) eqn:E0; [apply Z.eqb_eq in E0; cbn; lia|].
  rewrite Hio, Hk. cbn [negb ret].
  apply s64_small. unfold is_s64, LLONG_MIN, LLONG_MAX in *. lia.
Qed.

(** C1, on the code: two bytes written at offset 0 and read back from the
    same range come back as the bytes the region held before, although
    both calls report two bytes transferred. *)
Theorem pmem_write_then_read_returns_old_bytes :
  let w := pmem_write all_ok small_region zero_mem [x01; x02] 2 0 in
  let r := pmem_read all_ok small_region (iomem w) 2 0 in
  ret w = 2 /\ ret r = 2 /\ ubuf r = [x00; x00] /\ ubuf r <> [x01; x02].
Proof. vm_compute. repeat split; discriminate. Qed.

(** C2, on the code: three bytes written at offset 2 of a four-byte region
    are clamped to 2 and 2 is returned, but no byte reaches the buffer or
    the window and the position stays at 2: the only calls are the
    mapping, the allocation and their release. *)
Theorem pmem_write_copies_nothing :
  let w := pmem_write all_ok small_region zero_mem [x01; x02; x03] 3 2 in
  ret w = 2 /\
  read_bytes (iomem w) (start small_region + 2) 2 = [x00; x00] /\
  ppos w = 2 /\
  calls w = [Kioremap 4098 2 true; Kkmalloc 2 true; Kiounmap 4098; Kkfree].
Proof. vm_compute. repeat split. Qed.

(** With the braces in place the round trip of C1 and the transfer of C2
    hold: the bytes read back are the clamped prefix of those written. *)
Lemma read_bytes_write_bytes m phys bs :
  read_bytes (write_bytes m phys bs) phys (Z.of_nat (length bs)) = bs.
Proof.
  unfold read_bytes. rewrite Nat2Z.id.
  apply list_eq. intros i. rewrite list_lookup_fmap.
  destruct (decide (i < length bs)%nat) as [Hi|Hi].
  - rewrite lookup_seq_lt by assumption. cbn. unfold write_bytes.
    replace ((phys <=? phys + Z.of_nat i) &&
             (phys + Z.of_nat i <? phys + Z.of_nat (length bs))) with true
      by (symmetry; apply andb_true_intro; split;
          [apply Z.leb_le|apply Z.ltb_lt]; lia).
    replace (Z.to_nat (phys + Z.of_nat i - phys)) with i by lia.
    destruct (lookup_lt_is_Some_2 bs i Hi) as [b Hb].
    rewrite Hb. f_equal. rewrite nth_lookup, Hb. reflexivity.
  - rewrite lookup_seq_ge by lia. cbn.
    symmetry. apply lookup_ge_None. lia.
Qed.

Lemma clamp_count_le vpmem pos count :
  0 <= count -> 0 <= clamp_count vpmem pos count <= count.
Proof.
  intros Hc. unfold clamp_count. pose proof (u64_range (size vpmem - pos)).
  destruct (count >? _) eqn:E; [apply Z.gtb_lt in E|]; lia.
Qed.

Lemma pmem_write_braced_roundtrip vpmem m buf pos :
  let count := Z.of_nat (length buf) in
  let w := pmem_write_braced all_ok vpmem m buf count pos in
  let r := pmem_read all_ok vpmem (iomem w) count pos in
  ubuf r = firstn (Z.to_nat (clamp_count vpmem pos count)) buf.
Proof.
  intros count w r. unfold r, w, pmem_read, pmem_write_braced.
  pose proof (clamp_count_le vpmem pos count ltac:(unfold count; lia)) as Hc.
  set (c := clamp_count vpmem pos count) in *.
  destruct (c =? 0) eqn:E0.
  - apply Z.eqb_eq in E0. rewrite E0. reflexivity.
  - cbn [all_ok negb ioremap_ok kmalloc_ok copy_user_ok iomem ubuf].
    set (bs := firstn (Z.to_nat c) buf).
    assert (Hlen : c = Z.of_nat (length bs)).
    { unfold bs. rewrite length_take. unfold count in Hc. lia. }
    rewrite Hlen at 1. apply read_bytes_write_bytes.
Qed.

(** ** Teardown *)

(** C3, as stated, fails: in the scenario of five outstanding requests the
    callers are as blocked after [virtio_pmem_remove] as before. *)
Lemma teardown_leaves_callers_blocked :
  ~ (forall h : handle,
       queued teardown_scenario h \/ deferred teardown_scenario h ->
       ~ blocked (virtio_pmem_remove teardown_scenario) h).
Proof.
  intros H. apply (H 2%nat).
  - right. unfold deferred. cbn. auto.
  - exists pending_request. split; reflexivity.
Qed.

(** C3, amended: teardown deletes the request queue, resets the device,
    releases the region reservation and deregisters the device node, and
    that is all.  The request records and the deferred list are left as
    they were: no request is given a status or marked done, and exactly the
    callers blocked before teardown are blocked after it. *)
Theorem virtio_pmem_remove_leaves_requests (s : driver_state) :
  let s' := virtio_pmem_remove s in
  req_vq (vpmem_dev s') = None /\
  vdev_reset s' = true /\
  mem_region_reserved s' = false /\
  misc_registered s' = false /\
  requests s' = requests s /\
  req_list (vpmem_dev s') = req_list (vpmem_dev s) /\
  (forall h, deferred s' h <-> deferred s h) /\
  (forall h, blocked s' h <-> blocked s h).
Proof. cbn. repeat split; auto. Qed.

(** ** Flush request engine *)

Section flush_engine.
Import FlushEngine.
Implicit Types (e : engine) (r : handle) (ch dl : list handle).

Lemma promote_spec cap dl : forall ch,
  (length ch <= cap)%nat ->
  promote cap ch dl
  = (ch ++ take (cap - length ch) dl, drop (cap - length ch) dl).
Proof.
  induction dl as [|r dl IH]; intros ch Hle; cbn [promote].
  - rewrite take_nil, drop_nil, app_nil_r. reflexivity.
  - unfold offer. destruct (length ch <? cap)%nat eqn:E.
    + apply Nat.ltb_lt in E.
      rewrite IH by (rewrite length_app; cbn; lia).
      rewrite length_app. cbn [length].
      replace (cap - length ch)%nat
        with (S (cap - (length ch + 1)))%nat by lia.
      cbn. rewrite <- app_assoc. reflexivity.
    + apply Nat.ltb_ge in E.
      replace (cap - length ch)%nat with 0%nat by lia.
      rewrite take_0, drop_0, app_nil_r. reflexivity.
Qed.

Lemma engine_inv_init cap : engine_inv (init cap).
Proof.
  split; cbn; try done.
  - constructor.
  - intros r. split; [intros H; inversion H|lia].
  - lia.
Qed.

Lemma submit_tracked e : tracked (submit e) ≡ₚ next e :: tracked e.
Proof.
  unfold submit, tracked, offer.
  destruct (length (channel e) <? capacity e)%nat; cbn.
  - rewrite <- app_assoc. cbn. symmetry. apply Permutation_middle.
  - rewrite <- app_assoc. cbn.
    rewrite !(app_assoc (channel e) (deferred_list e)).
    symmetry. apply Permutation_middle.
Qed.

Lemma engine_inv_submit e : engine_inv e -> engine_inv (submit e).
Proof.
  intros [Hnd Hsub Hcap Hpark]. split.
  - rewrite submit_tracked. constructor; [|assumption].
    rewrite Hsub. lia.
  - intros r. rewrite submit_tracked, elem_of_cons, Hsub.
    unfold submit. destruct (offer _ _ _); cbn; lia.
  - unfold submit, offer.
    destruct (length (channel e) <? capacity e)%nat eqn:E; cbn; [|assumption].
    apply Nat.ltb_lt in E. rewrite length_app. cbn. lia.
  - unfold submit, offer.
    destruct (length (channel e) <? capacity e)%nat eqn:E; cbn.
    + apply Nat.ltb_lt in E. intros Hne. specialize (Hpark Hne). lia.
    + apply Nat.ltb_ge in E. intros _. lia.
Qed.

Lemma drainCompleted_NoDup e fin : NoDup (drainCompleted e fin).
Proof. apply NoDup_filter, NoDup_remove_dups. Qed.

Lemma drainCompleted_in_flight e fin r :
  r ∈ drainCompleted e fin -> r ∈ channel e.
Proof. unfold drainCompleted. rewrite list_elem_of_filter. tauto. Qed.

Lemma length_list_difference ch k :
  (length (list_difference ch k) <= length ch)%nat.
Proof.
  induction ch as [|x ch IH]; cbn; [lia|].
  destruct (decide_rel _ _ _); cbn; lia.
Qed.

(** Draining splits the channel into what stays and what completed. *)
Lemma channel_split e fin :
  NoDup (channel e) ->
  channel e
  ≡ₚ list_difference (channel e) (drainCompleted e fin) ++ drainCompleted e fin.
Proof.
  intros Hnd. apply NoDup_Permutation; [assumption| |].
  - apply NoDup_app. split; [|split].
    + apply NoDup_list_difference. assumption.
    + intros x Hx. apply list_elem_of_difference in Hx. tauto.
    + apply drainCompleted_NoDup.
  - intros x. rewrite elem_of_app, list_elem_of_difference. split.
    + intros Hx. destruct (decide (x ∈ drainCompleted e fin)); tauto.
    + intros [[Hx _]|Hx]; [assumption|].
      eapply drainCompleted_in_flight; eassumption.
Qed.

Lemma onHostSignal_eq e fin :
  (length (channel e) <= capacity e)%nat ->
  let completed := drainCompleted e fin in
  let ch := list_difference (channel e) completed in
  let k := (capacity e - length ch)%nat in
  onHostSignal e fin =
    {| capacity := capacity e;
       channel := ch ++ take k (deferred_list e);
       deferred_list := drop k (deferred_list e);
       notified := notified e ++ completed;
       next := next e |}.
Proof.
  intros Hcap completed ch k. unfold onHostSignal.
  fold completed. fold ch.
  rewrite promote_spec; [reflexivity|].
  pose proof (length_list_difference (channel e) completed).
  unfold ch. lia.
Qed.

Lemma onHostSignal_tracked e fin :
  engine_inv e -> tracked (onHostSignal e fin) ≡ₚ tracked e.
Proof.
  intros [Hnd _ Hcap _].
  rewrite onHostSignal_eq by assumption. unfold tracked in *. cbn.
  apply NoDup_app in Hnd as [Hch _].
  set (completed := drainCompleted e fin).
  set (ch := list_difference (channel e) completed).
  set (k := (capacity e - length ch)%nat).
  transitivity ((ch ++ completed) ++ deferred_list e ++ notified e).
  - rewrite <- !app_assoc. apply Permutation_app_head.
    rewrite (app_assoc (take k _)), take_drop.
    rewrite (app_assoc (deferred_list e)).
    apply Permutation_app_comm.
  - apply Permutation_app_tail. symmetry. apply channel_split, Hch.
Qed.

Lemma engine_inv_onHostSignal e fin :
  engine_inv e -> engine_inv (onHostSignal e fin).
Proof.
  intros Hinv. pose proof (onHostSignal_tracked e fin Hinv) as Htr.
  destruct Hinv as [Hnd Hsub Hcap Hpark]. split.
  - rewrite Htr. assumption.
  - intros r. rewrite Htr, Hsub.
    rewrite onHostSignal_eq by assumption. reflexivity.
  - rewrite onHostSignal_eq by assumption. cbn.
    pose proof (length_list_difference (channel e) (drainCompleted e fin)).
    rewrite length_app, length_take. lia.
  - rewrite onHostSignal_eq by assumption. cbn.
    pose proof (length_list_difference (channel e) (drainCompleted e fin)).
    intros Hne. rewrite length_app, length_take.
    assert (length (drop (capacity e
                - length (list_difference (channel e) (drainCompleted e fin)))
              (deferred_list e)) <> 0)%nat as Hlen.
    { intros H0. apply Hne, nil_length_inv, H0. }
    rewrite length_drop in Hlen. lia.
Qed.

Lemma engine_inv_step e ev : engine_inv e -> engine_inv (step e ev).
Proof.
  destruct ev; [apply engine_inv_submit|apply engine_inv_onHostSignal].
Qed.

Lemma engine_inv_run evs : forall e, engine_inv e -> engine_inv (run e evs).
Proof.
  induction evs as [|ev evs IH]; intros e He; [assumption|].
  apply IH, engine_inv_step, He.
Qed.

Lemma capacity_step e ev : capacity (step e ev) = capacity e.
Proof.
  destruct ev; cbn; unfold submit, onHostSignal.
  - destruct (offer _ _ _); reflexivity.
  - destruct (promote _ _ _); reflexivity.
Qed.

Lemma capacity_run evs : forall e, capacity (run e evs) = capacity e.
Proof.
  induction evs as [|ev evs IH]; intros e; [reflexivity|].
  change (capacity (run (step e ev) evs) = capacity e).
  rewrite IH. apply capacity_step.
Qed.

(** In a duplicate-free list a handle is counted once if present. *)
Lemma count_NoDup (l : list handle) r :
  NoDup l ->
  length (filter (fun x => x = r) l) = if decide (r ∈ l) then 1%nat else 0%nat.
Proof.
  induction 1 as [|x l Hx Hnd IH].
  - destruct (decide _) as [H|]; [inversion H|reflexivity].
  - rewrite filter_cons.
    destruct (decide (x = r)) as [->|Hne]; cbn.
    + rewrite IH. destruct (decide (r ∈ l)); [contradiction|].
      destruct (decide (r ∈ r :: l)) as [|Hn]; [reflexivity|].
      exfalso. apply Hn. left.
    + rewrite IH.
      destruct (decide (r ∈ l)), (decide (r ∈ x :: l)) as [Hin|Hn];
        try reflexivity.
      * exfalso. apply Hn. right. assumption.
      * apply elem_of_cons in Hin as [->|]; contradiction.
Qed.

Lemma engine_inv_notified e r :
  engine_inv e ->
  notifications e r = if decide (r ∈ notified e) then 1%nat else 0%nat.
Proof.
  intros [Hnd _ _ _]. unfold notifications. apply count_NoDup.
  unfold tracked in Hnd.
  apply NoDup_app in Hnd as (_ & _ & Hnd).
  apply NoDup_app in Hnd as (_ & _ & Hnd). assumption.
Qed.

(** With nothing in flight nothing is parked, and every submitted
    request has been notified. *)
Lemma engine_inv_quiescent e r :
  engine_inv e -> (0 < capacity e)%nat -> channel e = [] ->
  (r < next e)%nat ->
  deferred_list e = [] /\ state_of e r = ACKED /\ notifications e r = 1%nat.
Proof.
  intros Hinv Hpos Hch Hr.
  assert (Hdl : deferred_list e = []).
  { destruct (deferred_list e) eqn:E; [reflexivity|].
    pose proof (inv_parked e Hinv) as Hp. rewrite E, Hch in Hp.
    cbn in Hp. specialize (Hp ltac:(discriminate)). lia. }
  assert (Hin : r ∈ notified e).
  { apply (inv_submitted e Hinv) in Hr. unfold tracked in Hr.
    rewrite Hch, Hdl in Hr. exact Hr. }
  split; [assumption|]. split.
  - unfold state_of. destruct (decide _); [reflexivity|contradiction].
  - rewrite engine_inv_notified by assumption.
    destruct (decide _); [reflexivity|contradiction].
Qed.

Lemma host_acks_all_eq e :
  engine_inv e ->
  channel (host_acks_all e) = take (capacity e) (deferred_list e) /\
  deferred_list (host_acks_all e) = drop (capacity e) (deferred_list e) /\
  next (host_acks_all e) = next e /\
  capacity (host_acks_all e) = capacity e.
Proof.
  intros Hinv. unfold host_acks_all.
  rewrite onHostSignal_eq by apply Hinv. cbn.
  assert (Hd : list_difference (channel e) (drainCompleted e (channel e)) = []).
  { apply elem_of_nil_inv. intros x Hx.
    apply list_elem_of_difference in Hx as [Hx Hn]. apply Hn.
    unfold drainCompleted. apply list_elem_of_filter. split; [assumption|].
    apply elem_of_remove_dups. assumption. }
  rewrite Hd. cbn. rewrite Nat.sub_0_r. auto.
Qed.

(** Each round of host acknowledgements empties the channel and refills
    it from the deferred list, so the backlog is gone after at most one
    round per parked request, and one more. *)
Lemma host_acks_all_drains n : forall e,
  engine_inv e -> (0 < capacity e)%nat ->
  (length (deferred_list e) < n)%nat ->
  let e' := Nat.iter n host_acks_all e in
  engine_inv e' /\ capacity e' = capacity e /\ next e' = next e /\
  channel e' = [] /\ deferred_list e' = [].
Proof.
  induction n as [|n IH]; intros e Hinv Hpos Hlen; [lia|].
  rewrite Nat.iter_succ_r.
  destruct (host_acks_all_eq e Hinv) as (Hch & Hdl & Hnx & Hcp).
  assert (Hinv1 : engine_inv (host_acks_all e))
    by apply engine_inv_onHostSignal, Hinv.
  destruct n as [|n].
  - assert (Hd : deferred_list e = []) by (apply nil_length_inv; lia).
    cbn. rewrite Hd, take_nil in Hch. rewrite Hd, drop_nil in Hdl.
    auto.
  - destruct (IH (host_acks_all e) Hinv1) as (Hi & Hc & Hn & Hch' & Hdl').
    + lia.
    + rewrite Hdl, length_drop. lia.
    + cbn zeta. rewrite Hc, Hn, Hcp, Hnx. auto.
Qed.

Lemma engine_order_init cap : engine_order (init cap).
Proof.
  split; cbn; [constructor|]. intros x y Hx. inversion Hx.
Qed.

Lemma engine_order_submit e :
  engine_inv e -> engine_order e -> engine_order (submit e).
Proof.
  intros Hinv [Hs Hc].
  assert (Hlt : forall x, x ∈ tracked e -> (x < next e)%nat)
    by (intros x; apply (inv_submitted e Hinv)).
  unfold submit, offer.
  destruct (length (channel e) <? capacity e)%nat eqn:E; split; cbn.
  - assumption.
  - apply Nat.ltb_lt in E. intros x y _ Hy.
    pose proof (inv_parked e Hinv) as Hp.
    destruct (deferred_list e); [inversion Hy|].
    specialize (Hp ltac:(discriminate)). lia.
  - apply StronglySorted_app_2; [|assumption|repeat constructor].
    intros x y Hx ->%list_elem_of_singleton.
    apply Hlt. unfold tracked. rewrite !elem_of_app. auto.
  - intros x y Hx [Hy| ->%list_elem_of_singleton]%elem_of_app; [auto|].
    apply Hlt. unfold tracked. rewrite !elem_of_app. auto.
Qed.

Lemma engine_order_onHostSignal e fin :
  engine_inv e -> engine_order e -> engine_order (onHostSignal e fin).
Proof.
  intros Hinv [Hs Hc].
  rewrite onHostSignal_eq by apply Hinv.
  set (k := (capacity e - _)%nat). clearbody k.
  rewrite <- (take_drop k (deferred_list e)) in Hs.
  assert (Hsub : forall y, y ∈ drop k (deferred_list e) -> y ∈ deferred_list e).
  { intros y Hy. rewrite <- (take_drop k (deferred_list e)), elem_of_app. auto. }
  split; cbn.
  - eapply StronglySorted_app_1_r, Hs.
  - intros x y [Hx|Hx]%elem_of_app Hy.
    + apply list_elem_of_difference in Hx as [Hx _]. auto.
    + eapply StronglySorted_app_1_elem_of; eassumption.
Qed.

Lemma engine_reachable cap evs :
  let e := run (init cap) evs in engine_inv e /\ engine_order e.
Proof.
  unfold run. rewrite <- fold_left_rev_right.
  induction (rev evs) as [|ev l [IHi IHo]]; cbn.
  - split; [apply engine_inv_init|apply engine_order_init].
  - split; [apply engine_inv_step, IHi|].
    destruct ev; cbn;
      [apply engine_order_submit|apply engine_order_onHostSignal]; assumption.
Qed.

Lemma tracked_disjoint e :
  engine_inv e ->
  (forall r, r ∈ channel e -> r ∈ deferred_list e -> False) /\
  (forall r, r ∈ channel e -> r ∈ notified e -> False) /\
  (forall r, r ∈ deferred_list e -> r ∈ notified e -> False).
Proof.
  intros [Hnd _ _ _]. unfold tracked in Hnd.
  apply NoDup_app in Hnd as (_ & Hcd & Hnd).
  apply NoDup_app in Hnd as (_ & Hdn & _).
  repeat split.
  - intros r Hr Hd. apply (Hcd r Hr), elem_of_app. auto.
  - intros r Hr Hn. apply (Hcd r Hr), elem_of_app. auto.
  - intros r Hr Hn. apply (Hdn r Hr Hn).
Qed.

Lemma state_of_ACKED e r : state_of e r = ACKED <-> r ∈ notified e.
Proof.
  unfold state_of. repeat destruct (decide _); split; intros; done.
Qed.

Lemma state_of_QUEUED e r :
  engine_inv e -> state_of e r = QUEUED <-> r ∈ channel e.
Proof.
  intros (Hcd & Hcn & Hdn)%tracked_disjoint. unfold state_of.
  repeat destruct (decide _); split; intros; try done; exfalso; eauto.
Qed.

Lemma state_of_DEFERRED e r :
  engine_inv e -> state_of e r = DEFERRED <-> r ∈ deferred_list e.
Proof.
  intros (Hcd & Hcn & Hdn)%tracked_disjoint. unfold state_of.
  repeat destruct (decide _); split; intros; try done; exfalso; eauto.
Qed.

Lemma state_of_CREATED e r : state_of e r = CREATED <-> r ∉ tracked e.
Proof.
  unfold state_of, tracked. rewrite !elem_of_app.
  repeat destruct (decide _); split; intros; try done; tauto.
Qed.

Lemma notified_step e ev r : r ∈ notified e -> r ∈ notified (step e ev).
Proof.
  destruct ev; cbn; unfold submit, onHostSignal.
  - destruct (offer _ _ _); cbn; auto.
  - destruct (promote _ _ _); cbn. rewrite elem_of_app. auto.
Qed.

Lemma notified_run evs : forall e r, r ∈ notified e -> r ∈ notified (run e evs).
Proof.
  induction evs as [|ev evs IH]; intros e r Hr; [assumption|].
  apply IH, notified_step, Hr.
Qed.

(** A parked request always has an older request in the channel: it
    waits for the host and for nothing else. *)
Lemma deferred_behind_queued e r :
  engine_inv e -> engine_order e -> (0 < capacity e)%nat ->
  r ∈ deferred_list e -> exists q, (q < r)%nat /\ q ∈ channel e.
Proof.
  intros Hinv Hord Hpos Hr.
  assert (Hlen : length (channel e) = capacity e).
  { apply (inv_parked e Hinv). intros Hnil. rewrite Hnil in Hr. inversion Hr. }
  destruct (channel e) as [|q ch] eqn:E; [cbn in Hlen; lia|].
  exists q. split; [|left].
  apply (ord_channel e Hord); [rewrite E; left|assumption].
Qed.



End flush_engine.


(** * Further properties of the driver *)

(** Closed numeric side conditions, by evaluation. *)
Ltac by_compute :=
  vm_compute;
  first [discriminate | reflexivity
        | split; first [discriminate | reflexivity]].

(** ** Seeking *)

(** X1: the position [SEEK_END] leaves, the size of the region, cannot be
    queried: a [SEEK_CUR] by zero from there fails with [-ESPIPE]. *)
Theorem pmem_lseek_tell_at_end vpmem filp off :
  0 <= size vpmem <= LLONG_MAX ->
  let at_end := snd (pmem_lseek vpmem filp off SEEK_END) in
  f_pos at_end = size vpmem /\
  pmem_lseek vpmem at_end 0 SEEK_CUR = (- ESPIPE, at_end).
Proof.
  intros Hsz at_end. unfold at_end.
  rewrite pmem_lseek_end by assumption. cbn [snd f_pos].
  split; [reflexivity|].
  rewrite pmem_lseek_set_cur
    by (auto; unfold is_s64, LLONG_MIN, LLONG_MAX; lia).
  unfold seek_target. cbn [f_pos]. change (SEEK_CUR =? SEEK_SET) with false.
  cbn match. rewrite Z.add_0_r.
  rewrite s64_small by (unfold is_s64, LLONG_MIN, LLONG_MAX in *; lia).
  rewrite Z.ltb_irrefl, andb_false_r. reflexivity.
Qed.

Lemma pmem_lseek_tell_at_end_witness :
  pmem_lseek small_region
    (snd (pmem_lseek small_region {| f_pos := 1 |} 0 SEEK_END)) 0 SEEK_CUR
  = (- ESPIPE, snd (pmem_lseek small_region {| f_pos := 1 |} 0 SEEK_END)).
Proof.
  apply (pmem_lseek_tell_at_end small_region {| f_pos := 1 |} 0).
  vm_compute. split; discriminate.
Defined.

(** X2: seeking keeps the position inside the region, its end included:
    from a position in [0, size] every seek, failed or not, leaves a
    position in [0, size]. *)
Theorem pmem_lseek_position_in_region vpmem filp off whence :
  0 <= size vpmem <= LLONG_MAX -> is_s64 off ->
  0 <= f_pos filp <= size vpmem ->
  0 <= f_pos (snd (pmem_lseek vpmem filp off whence)) <= size vpmem.
Proof.
  intros Hsz Hoff Hpos.
  destruct (whence_known whence) eqn:Hk.
  - unfold whence_known in Hk.
    apply orb_prop in Hk as [Hk | Hend%Z.eqb_eq].
    + assert (Hw : whence = SEEK_SET \/ whence = SEEK_CUR).
      { apply orb_prop in Hk as [?%Z.eqb_eq | ?%Z.eqb_eq]; auto. }
      rewrite pmem_lseek_set_cur by assumption.
      destruct ((0 <=? _) && _) eqn:E; [|assumption].
      apply andb_prop in E as [?%Z.leb_le ?%Z.ltb_lt]. cbn. lia.
    + subst. rewrite pmem_lseek_end by assumption. cbn. lia.
  - rewrite pmem_lseek_unknown by assumption. assumption.
Qed.

Lemma pmem_lseek_position_in_region_witness :
  0 <= f_pos (snd (pmem_lseek small_region {| f_pos := 4 |} (-2) SEEK_CUR)) <= 4.
Proof.
  apply (pmem_lseek_position_in_region small_region {| f_pos := 4 |} (-2) SEEK_CUR).
  - vm_compute. split; discriminate.
  - vm_compute. split; discriminate.
  - vm_compute. split; discriminate.
Defined.

(** X3: when the size of the region fits [loff_t], from a non-negative
    position the 64-bit addition of [SEEK_CUR] cannot wrap into the
    region: the seek succeeds exactly when the exact sum of position and
    delta lies in [0, size), and then lands on it. *)
Theorem pmem_lseek_cur_exact vpmem filp off :
  0 <= size vpmem <= LLONG_MAX -> 0 <= f_pos filp <= LLONG_MAX ->
  is_s64 off ->
  let target := f_pos filp + off in
  (0 <= target < size vpmem ->
     pmem_lseek vpmem filp off SEEK_CUR = (target, {| f_pos := target |})) /\
  (~ 0 <= target < size vpmem ->
     pmem_lseek vpmem filp off SEEK_CUR = (- ESPIPE, filp)).
Proof.
  intros Hsz Hpos Hoff target.
  pose proof (seek_cur_no_wrap (size vpmem) (f_pos filp) off Hsz Hpos Hoff)
    as Hwrap.
  rewrite pmem_lseek_set_cur by auto.
  unfold seek_target. change (SEEK_CUR =? SEEK_SET) with false. cbn match.
  fold target in Hwrap |- *.
  destruct ((0 <=? s64 target) && (s64 target <? size vpmem)) eqn:E.
  - apply andb_prop in E as [?%Z.leb_le ?%Z.ltb_lt].
    assert (Hin : 0 <= target < size vpmem) by (apply Hwrap; lia).
    split; [intros _|intros Hn; contradiction].
    rewrite s64_small; [reflexivity|].
    unfold is_s64, LLONG_MIN, LLONG_MAX in *. lia.
  - split; [intros Hin|reflexivity].
    apply Hwrap in Hin.
    apply andb_false_iff in E as [E%Z.leb_gt | E%Z.ltb_ge]; lia.
Qed.

Lemma pmem_lseek_cur_exact_witness :
  pmem_lseek small_region {| f_pos := 3 |} (-2) SEEK_CUR
  = (1, {| f_pos := 1 |}).
Proof.
  apply (pmem_lseek_cur_exact small_region {| f_pos := 3 |} (-2)).
  - vm_compute. split; discriminate.
  - vm_compute. split; discriminate.
  - vm_compute. split; discriminate.
  - vm_compute. split; [discriminate|reflexivity].
Defined.

(** X4: the size of the region is not checked against the range of a file
    offset: for a size above [LLONG_MAX], [SEEK_END] stores and returns the
    negative number [size - 2^64]. *)
Theorem pmem_lseek_end_oversize vpmem filp off :
  LLONG_MAX < size vpmem <= ULLONG_MAX ->
  let r := pmem_lseek vpmem filp off SEEK_END in
  r = (size vpmem - 2 ^ 64, {| f_pos := size vpmem - 2 ^ 64 |}) /\ fst r < 0.
Proof.
  intros Hsz r. unfold r, pmem_lseek. cbn.
  assert (Hs : s64 (size vpmem) = size vpmem - 2 ^ 64) by wrap_arith.
  rewrite Hs. split; [reflexivity|].
  cbn [fst]. unfold ULLONG_MAX in Hsz. lia.
Qed.

Lemma pmem_lseek_end_oversize_witness :
  fst (pmem_lseek {| req_vq := None; req_list := []; start := 0;
                     size := 2 ^ 63 |} {| f_pos := 0 |} 0 SEEK_END) < 0.
Proof.
  apply (pmem_lseek_end_oversize
           {| req_vq := None; req_list := []; start := 0; size := 2 ^ 63 |}
           {| f_pos := 0 |} 0).
  vm_compute. split; [reflexivity|discriminate].
Defined.

(** ** Reading *)

Lemma map_seq_from {A} n : forall (f : nat -> A) s,
  map f (seq s n) = map (fun i => f (s + i)%nat) (seq 0 n).
Proof.
  induction n as [|n IH]; intros f s; [reflexivity|].
  cbn [seq map]. rewrite Nat.add_0_r. f_equal.
  rewrite (IH f (S s)), (IH (fun i => f (s + i)%nat) 1%nat).
  apply map_ext. intros i. f_equal. lia.
Qed.

Lemma read_bytes_app m phys c1 c2 :
  0 <= c1 -> 0 <= c2 ->
  read_bytes m phys (c1 + c2)
  = read_bytes m phys c1 ++ read_bytes m (phys + c1) c2.
Proof.
  intros H1 H2. unfold read_bytes.
  rewrite Z2Nat.inj_add, seq_app, map_app by assumption. f_equal.
  cbn [Nat.add]. rewrite map_seq_from. apply map_ext. intros i.
  f_equal. lia.
Qed.

Lemma nth_read_bytes m phys len i d :
  0 <= i < len ->
  nth (Z.to_nat i) (read_bytes m phys len) d = m (phys + i).
Proof.
  intros Hi. unfold read_bytes.
  rewrite nth_lookup, list_lookup_fmap, lookup_seq_lt by lia.
  cbn. f_equal. lia.
Qed.

(** [pmem_read] at a position of a region that lies in the 64-bit
    physical address space, when every kernel service succeeds. *)
Lemma pmem_read_all_ok vpmem m count pos :
  0 <= start vpmem -> start vpmem + size vpmem <= ULLONG_MAX ->
  0 <= size vpmem <= LLONG_MAX -> 0 <= pos <= size vpmem -> is_u64 count ->
  let r := pmem_read all_ok vpmem m count pos in
  let n := Z.min count (size vpmem - pos) in
  ret r = n /\ ppos r = pos + n /\
  ubuf r = read_bytes m (start vpmem + pos) n /\ iomem r = m.
Proof.
  intros Hst Hend Hsz Hpos Hcount r n. unfold r.
  rewrite pmem_read_in_range by assumption. fold n.
  rewrite (u64_small (start vpmem + pos)) by (unfold is_u64; lia).
  destruct (n =? 0) eqn:E0; cbn [all_ok negb ioremap_ok kmalloc_ok
                                 copy_user_ok ret ppos ubuf iomem].
  - apply Z.eqb_eq in E0. rewrite E0, Z.add_0_r. repeat split.
  - repeat split.
Qed.

(** X5: when the kernel services succeed, a read at a position of the
    region returns the bytes physical memory holds from [start + pos] on,
    as many as requested or as remain, and leaves memory as it was. *)
Theorem pmem_read_returns_region_bytes vpmem m count pos :
  0 <= start vpmem -> start vpmem + size vpmem <= ULLONG_MAX ->
  0 <= size vpmem <= LLONG_MAX -> 0 <= pos <= size vpmem -> is_u64 count ->
  let r := pmem_read all_ok vpmem m count pos in
  let n := Z.min count (size vpmem - pos) in
  ret r = n /\
  ubuf r = read_bytes m (start vpmem + pos) n /\
  (forall i, 0 <= i < n ->
     nth (Z.to_nat i) (ubuf r) x00 = m (start vpmem + pos + i)) /\
  iomem r = m.
Proof.
  intros Hst Hend Hsz Hpos Hcount r n.
  destruct (pmem_read_all_ok vpmem m count pos Hst Hend Hsz Hpos Hcount)
    as (Hret & _ & Hbuf & Hmem).
  fold r n in Hret, Hbuf, Hmem.
  repeat split; try assumption.
  intros i Hi. rewrite Hbuf. apply nth_read_bytes. assumption.
Qed.

Lemma pmem_read_returns_region_bytes_witness :
  ubuf (pmem_read all_ok small_region ramp_mem 8 1)
  = read_bytes ramp_mem (4096 + 1) 3.
Proof.
  pose proof (pmem_read_returns_region_bytes small_region ramp_mem 8 1
                ltac:(by_compute) ltac:(by_compute) ltac:(by_compute)
                ltac:(by_compute) ltac:(by_compute)) as (_ & Hbuf & _).
  exact Hbuf.
Defined.

(** X6: a read or a write at a position of the region maps, if anything,
    exactly the clamped range [start + pos, start + pos + n), which lies
    inside the region. *)
Theorem pmem_rw_maps_inside_region env vpmem m buf count pos phys len ok :
  0 <= start vpmem -> start vpmem + size vpmem <= ULLONG_MAX ->
  0 <= pos <= size vpmem -> is_u64 count ->
  In (Kioremap phys len ok) (calls (pmem_read env vpmem m count pos)) \/
  In (Kioremap phys len ok) (calls (pmem_write env vpmem m buf count pos)) ->
  phys = start vpmem + pos /\ len = Z.min count (size vpmem - pos) /\
  0 < len /\ start vpmem <= phys /\ phys + len <= start vpmem + size vpmem.
Proof.
  intros Hst Hend Hpos Hcount Hin.
  assert (Hgoal : phys = start vpmem + pos /\
                  len = Z.min count (size vpmem - pos) /\
                  Z.min count (size vpmem - pos) <> 0).
  { unfold pmem_read, pmem_write in Hin.
    rewrite clamp_count_in_range in Hin by lia.
    rewrite (u64_small (start vpmem + pos)) in Hin by (unfold is_u64; lia).
    set (c := Z.min count (size vpmem - pos)) in *.
    destruct (c =? 0) eqn:E0; [destruct Hin as [[]|[]]|].
    apply Z.eqb_neq in E0.
    destruct env as [[] [] []]; cbn in Hin;
      repeat match goal with
             | H : _ \/ _ |- _ => destruct H as [H|H]
             | H : False |- _ => destruct H
             | H : _ = Kioremap _ _ _ |- _ =>
                 first [discriminate H | injection H as <- <- <-]
             end; auto. }
  destruct Hgoal as (-> & -> & Hne). unfold is_u64 in Hcount.
  repeat split; lia.
Qed.

Lemma pmem_rw_maps_inside_region_witness :
  4096 <= 4097 /\ 4097 + 3 <= 4096 + 4.
Proof.
  pose proof (pmem_rw_maps_inside_region all_ok small_region zero_mem []
                8 1 4097 3 true
                ltac:(vm_compute; discriminate)
                ltac:(vm_compute; discriminate)
                ltac:(vm_compute; split; discriminate)
                ltac:(vm_compute; split; discriminate)
                ltac:(left; left; reflexivity)) as (_ & _ & _ & H1 & H2).
  exact (conj H1 H2).
Defined.

(** X7: reads compose: with the kernel services succeeding, reading [n1]
    bytes and then [n2] bytes from where the first read left the position
    delivers the bytes, the count and the final position of one read of
    [n1 + n2] bytes. *)
Theorem pmem_read_sequential vpmem m n1 n2 pos :
  0 <= start vpmem -> start vpmem + size vpmem <= ULLONG_MAX ->
  0 <= size vpmem <= LLONG_MAX -> 0 <= pos <= size vpmem ->
  0 <= n1 -> 0 <= n2 -> n1 + n2 <= ULLONG_MAX ->
  let r1 := pmem_read all_ok vpmem m n1 pos in
  let r2 := pmem_read all_ok vpmem m n2 (ppos r1) in
  let r := pmem_read all_ok vpmem m (n1 + n2) pos in
  ubuf r1 ++ ubuf r2 = ubuf r /\
  ret r1 + ret r2 = ret r /\
  ppos r2 = ppos r.
Proof.
  intros Hst Hend Hsz Hpos H1 H2 H12 r1 r2 r.
  destruct (pmem_read_all_ok vpmem m n1 pos)
    as (Hret1 & Hp1 & Hbuf1 & _); try assumption; [unfold is_u64; lia|].
  fold r1 in Hret1, Hbuf1, Hp1.
  set (c1 := Z.min n1 (size vpmem - pos)) in *.
  assert (Hc1 : 0 <= c1 <= size vpmem - pos) by (unfold c1; lia).
  destruct (pmem_read_all_ok vpmem m n2 (ppos r1))
    as (Hret2 & Hp2 & Hbuf2 & _); try assumption; [lia|unfold is_u64; lia|].
  fold r2 in Hret2, Hbuf2, Hp2.
  destruct (pmem_read_all_ok vpmem m (n1 + n2) pos)
    as (Hret & Hp & Hbuf & _); try assumption; [unfold is_u64; lia|].
  fold r in Hret, Hbuf, Hp.
  rewrite Hp1 in *.
  set (c2 := Z.min n2 (size vpmem - (pos + c1))) in *.
  assert (Hsum : Z.min (n1 + n2) (size vpmem - pos) = c1 + c2)
    by (unfold c1, c2; lia).
  rewrite Hsum in *.
  rewrite Hbuf1, Hbuf2, Hbuf, Hret1, Hret2, Hret, Hp2, Hp.
  split; [|split; [reflexivity|lia]].
  rewrite read_bytes_app by (unfold c2; lia).
  rewrite Z.add_assoc. reflexivity.
Qed.

Lemma pmem_read_sequential_witness :
  ubuf (pmem_read all_ok small_region ramp_mem 1 1)
  ++ ubuf (pmem_read all_ok small_region ramp_mem 5
             (ppos (pmem_read all_ok small_region ramp_mem 1 1)))
  = ubuf (pmem_read all_ok small_region ramp_mem (1 + 5) 1).
Proof.
  pose proof (pmem_read_sequential small_region ramp_mem 1 5 1
                ltac:(by_compute) ltac:(by_compute) ltac:(by_compute)
                ltac:(by_compute) ltac:(by_compute) ltac:(by_compute)
                ltac:(by_compute)) as (Hbuf & _).
  exact Hbuf.
Defined.

(** X8: whatever the kernel services do, a read at a position of the
    region moves the position forward only, and never past the end. *)
Theorem pmem_read_position_in_region env vpmem m count pos :
  0 <= size vpmem <= LLONG_MAX -> 0 <= pos <= size vpmem -> is_u64 count ->
  pos <= ppos (pmem_read env vpmem m count pos) <= size vpmem.
Proof.
  intros Hsz Hpos Hcount.
  rewrite pmem_read_in_range by assumption.
  set (c := Z.min count (size vpmem - pos)).
  assert (Hc : 0 <= c <= size vpmem - pos) by (unfold c, is_u64 in *; lia).
  destruct (c =? 0); [cbn; lia|].
  destruct env as [[] [] []]; cbn; lia.
Qed.

Lemma pmem_read_position_in_region_witness :
  3 <= ppos (pmem_read all_ok small_region zero_mem 9 3) <= 4.
Proof.
  apply (pmem_read_position_in_region all_ok small_region zero_mem 9 3);
    by_compute.
Defined.

(** X9: past the end of the region nothing is clamped: with the kernel
    services succeeding, a read of [count] bytes at a position beyond
    [size] returns [count] bytes, those physical memory holds from
    [start + pos] on, and advances the position by [count]. *)
Theorem pmem_read_past_end_unclamped vpmem m count pos :
  0 <= start vpmem -> start vpmem + pos <= ULLONG_MAX ->
  0 <= size vpmem < pos -> 0 < count -> pos + count <= LLONG_MAX ->
  let r := pmem_read all_ok vpmem m count pos in
  ret r = count /\
  ubuf r = read_bytes m (start vpmem + pos) count /\
  ppos r = pos + count /\
  mapping_failed (calls r) = false /\
  hd_error (calls r) = Some (Kioremap (start vpmem + pos) count true).
Proof.
  intros Hst Haddr Hpos Hcount Hend r. unfold r, pmem_read.
  rewrite clamp_count_past_end by (unfold LLONG_MAX in *; lia).
  replace (count =? 0) with false by (symmetry; apply Z.eqb_neq; lia).
  rewrite (u64_small (start vpmem + pos)) by (unfold is_u64; lia).
  cbn [all_ok negb ioremap_ok kmalloc_ok copy_user_ok].
  rewrite (s64_small count), (s64_small (pos + count))
    by (unfold is_s64, LLONG_MIN, LLONG_MAX in *; lia).
  cbn. repeat split.
Qed.

Lemma pmem_read_past_end_unclamped_witness :
  ret (pmem_read all_ok small_region ramp_mem 16 100) = 16.
Proof.
  pose proof (pmem_read_past_end_unclamped small_region ramp_mem 16 100
                ltac:(by_compute) ltac:(by_compute) ltac:(by_compute)
                ltac:(by_compute) ltac:(by_compute)) as (Hret & _).
  exact Hret.
Defined.

(** ** Writing *)

(** X10: [pmem_write] changes nothing and reads nothing: whatever its
    arguments and whatever the kernel services do, physical memory and the
    file position are as before, neither [copy_from_user] nor
    [memcpy_toio] is called, and the outcome is the same for any other
    content of the caller's buffer. *)
Theorem pmem_write_is_a_no_op env vpmem m buf buf' count pos :
  let w := pmem_write env vpmem m buf count pos in
  iomem w = m /\ ppos w = pos /\
  forallb (fun c => match c with
                    | Kcopy_from_user _ _ | Kmemcpy_toio _ _ => false
                    | _ => true
                    end) (calls w) = true /\
  pmem_write env vpmem m buf' count pos = w.
Proof.
  intros w.
  destruct (pmem_write_never_stores env vpmem m buf count pos)
    as (Hm & Hp & Hc).
  repeat split; assumption.
Qed.

(** X11: on a write inside the region with a non-zero clamped length, the
    result is [-ENOMEM] exactly when the mapping or the buffer could not be
    obtained and the clamped count otherwise, never [-EFAULT]; on every
    path the mapping and the buffer obtained are released. *)
Theorem pmem_write_failures_and_release env vpmem m buf count pos :
  0 <= size vpmem <= LLONG_MAX -> 0 <= pos < size vpmem ->
  0 < count <= ULLONG_MAX ->
  let w := pmem_write env vpmem m buf count pos in
  (ret w = - ENOMEM <-> ioremap_ok env = false \/ kmalloc_ok env = false) /\
  (ret w <> - ENOMEM -> ret w = Z.min count (size vpmem - pos)) /\
  ret w <> - EFAULT /\
  copy_failed (calls w) = false /\
  live_mappings (calls w) [] = [] /\
  live_buffers (calls w) 0 = 0%nat.
Proof.
  intros Hsz Hpos Hcount w. unfold w, pmem_write.
  rewrite clamp_count_in_range by (unfold LLONG_MAX, ULLONG_MAX in *; lia).
  set (c := Z.min count (size vpmem - pos)).
  assert (Hc : 0 < c <= LLONG_MAX) by (unfold c; lia).
  replace (c =? 0) with false by (symmetry; apply Z.eqb_neq; lia).
  pose proof (s64_small c) as Hs.
  pose proof (s64_of_u64_neg ENOMEM
                ltac:(vm_compute; split; [reflexivity|discriminate])) as He.
  destruct env as [[] [] ?];
    cbn [negb ioremap_ok kmalloc_ok copy_user_ok ret calls app
         copy_failed existsb orb live_mappings live_buffers Nat.pred];
    rewrite ?live_mappings_unmap, ?He, ?Hs
      by (unfold is_s64, LLONG_MIN, LLONG_MAX in *; lia);
    unfold ENOMEM, EFAULT;
    (repeat split; try reflexivity; try discriminate; try lia;
     try (intros [? | ?]; discriminate);
     try (right; reflexivity); try (left; reflexivity)).
Qed.

Lemma pmem_write_failures_and_release_witness :
  let w := pmem_write {| ioremap_ok := true; kmalloc_ok := false;
                         copy_user_ok := true |}
             small_region zero_mem [x01] 1 2 in
  ret w = - ENOMEM /\ live_mappings (calls w) [] = [].
Proof.
  pose proof (pmem_write_failures_and_release
                {| ioremap_ok := true; kmalloc_ok := false;
                   copy_user_ok := true |} small_region zero_mem [x01] 1 2
                ltac:(by_compute) ltac:(by_compute) ltac:(by_compute))
    as (Henv & _ & _ & _ & Hmap & _).
  split; [apply Henv; right; reflexivity|exact Hmap].
Defined.

(** ** Probing *)

Lemma virtio_pmem_probe_cases env :
  virtio_pmem_probe env =
    if negb (config_get env) then (- EINVAL, None)
    else if negb (devm_kzalloc_ok env) then (- ENOMEM, None)
    else match find_single_vq env with
         | inl err =>
             if err =? 0 then
               (misc_register_ret env,
                Some {| vpmem_dev := {| req_vq := None; req_list := [];
                                        start := u64 (config_start env);
                                        size := u64 (config_size env) |};
                        requests := ∅; vdev_reset := false;
                        mem_region_reserved := request_mem_region_ok env;
                        misc_registered := (misc_register_ret env =? 0) |})
             else
               (err,
                Some {| vpmem_dev := {| req_vq := None; req_list := [];
                                        start := 0; size := 0 |};
                        requests := ∅; vdev_reset := false;
                        mem_region_reserved := false;
                        misc_registered := false |})
         | inr vq =>
             (misc_register_ret env,
              Some {| vpmem_dev := {| req_vq := Some vq; req_list := [];
                                      start := u64 (config_start env);
                                      size := u64 (config_size env) |};
                      requests := ∅; vdev_reset := false;
                      mem_region_reserved := request_mem_region_ok env;
                      misc_registered := (misc_register_ret env =? 0) |})
         end.
Proof.
  unfold virtio_pmem_probe, init_vq.
  destruct (config_get env), (devm_kzalloc_ok env); try reflexivity.
  destruct (find_single_vq env) as [err|vq]; cbn; [|reflexivity].
  destruct (err =? 0); reflexivity.
Qed.

(** The instance a successful probe leaves. *)
Lemma virtio_pmem_probe_instance env s :
  virtio_pmem_probe env = (0, Some s) ->
  start (vpmem_dev s) = u64 (config_start env) /\
  size (vpmem_dev s) = u64 (config_size env).
Proof.
  rewrite virtio_pmem_probe_cases. intros Hp.
  destruct (config_get env), (devm_kzalloc_ok env); cbn [negb] in Hp;
    try discriminate Hp.
  destruct (find_single_vq env) as [err|vq].
  - destruct (err =? 0) eqn:E.
    + injection Hp as _ <-. cbn. split; reflexivity.
    + injection Hp as -> _. discriminate E.
  - injection Hp as _ <-. cbn. split; reflexivity.
Qed.

(** X12: the probe returns 0 or a negative error number.  It returns 0
    exactly when the configuration space is accessible, the instance is
    allocated, the request queue is found and [misc_register] succeeds,
    whether or not the memory region could be reserved; and the device
    node is registered exactly when it returns 0. *)
Theorem virtio_pmem_probe_success env :
  probe_env_wf env ->
  let r := virtio_pmem_probe env in
  fst r <= 0 /\
  (fst r = 0 <->
     config_get env = true /\ devm_kzalloc_ok env = true /\
     (exists vq, find_single_vq env = inr vq) /\ misc_register_ret env = 0) /\
  (fst r = 0 <-> exists s, snd r = Some s /\ misc_registered s = true).
Proof.
  intros [Hvq Hmisc] r. unfold r. rewrite virtio_pmem_probe_cases.
  unfold EINVAL, ENOMEM.
  destruct (config_get env), (devm_kzalloc_ok env); cbn [negb fst snd];
    try (split; [lia|split; split;
           [intros H; discriminate H
           |intros (H1 & H2 & _); discriminate
           |intros H; discriminate H
           |intros (s & H & _); discriminate H]]).
  destruct (find_single_vq env) as [err|vq].
  - replace (err =? 0) with false by (symmetry; apply Z.eqb_neq; lia).
    cbn [fst snd]. split; [lia|]. split; split.
    + intros ->. lia.
    + intros (_ & _ & (vq & Hq) & _). discriminate Hq.
    + intros ->. lia.
    + intros (s & [= <-] & Hreg). discriminate Hreg.
  - cbn [fst snd]. split; [assumption|]. split; split.
    + intros ->. repeat split. exists vq. reflexivity.
    + intros (_ & _ & _ & H). exact H.
    + intros ->. eexists. split; reflexivity.
    + intros (s & [= <-] & Hreg). cbn in Hreg. apply Z.eqb_eq, Hreg.
Qed.

Lemma virtio_pmem_probe_success_witness :
  fst (virtio_pmem_probe good_probe_env) = 0.
Proof.
  pose proof (virtio_pmem_probe_success good_probe_env
                ltac:(vm_compute; split; [exact I|discriminate]))
    as (_ & Hok & _).
  apply Hok. repeat split. eexists. reflexivity.
Defined.

(** X13: what a successful probe acquired, teardown gives back: after
    [virtio_pmem_remove] the queue is gone, the region reservation is
    dropped and the device node is deregistered, while the instance keeps
    the start and size read from the configuration space. *)
Theorem virtio_pmem_probe_then_remove env s :
  virtio_pmem_probe env = (0, Some s) ->
  let s' := virtio_pmem_remove s in
  req_vq (vpmem_dev s') = None /\
  mem_region_reserved s' = false /\
  misc_registered s' = false /\
  req_list (vpmem_dev s') = [] /\
  start (vpmem_dev s') = u64 (config_start env) /\
  size (vpmem_dev s') = u64 (config_size env).
Proof.
  rewrite virtio_pmem_probe_cases. intros Hp s'. unfold s'.
  destruct (config_get env), (devm_kzalloc_ok env); cbn [negb] in Hp;
    try discriminate Hp.
  destruct (find_single_vq env) as [err|vq].
  - destruct (err =? 0) eqn:E.
    + injection Hp as _ <-. cbn. repeat split.
    + injection Hp as -> _. discriminate E.
  - injection Hp as _ <-. cbn. repeat split.
Qed.

Lemma virtio_pmem_probe_then_remove_witness :
  exists s, virtio_pmem_probe good_probe_env = (0, Some s) /\
            misc_registered s = true /\
            misc_registered (virtio_pmem_remove s) = false.
Proof.
  eexists. split; [reflexivity|]. split; [reflexivity|].
  eapply (virtio_pmem_probe_then_remove good_probe_env). reflexivity.
Defined.



(** ** End of region *)

(** X15: whatever the kernel services do, a read at a position of the
    region returns no more than what remains and delivers no more bytes
    than that; at the end of the region it returns 0 without calling any
    kernel service. *)
Theorem pmem_read_bounded env vpmem m count pos :
  0 <= size vpmem <= LLONG_MAX -> 0 <= pos <= size vpmem -> is_u64 count ->
  let r := pmem_read env vpmem m count pos in
  ret r <= size vpmem - pos /\
  Z.of_nat (length (ubuf r)) <= size vpmem - pos /\
  (pos = size vpmem -> ret r = 0 /\ ubuf r = [] /\ calls r = []).
Proof.
  intros Hsz Hpos Hcount r. unfold r.
  rewrite pmem_read_in_range by assumption.
  set (c := Z.min count (size vpmem - pos)).
  assert (Hc : 0 <= c <= size vpmem - pos) by (unfold c, is_u64 in *; lia).
  unfold ENOMEM, EFAULT.
  destruct (c =? 0) eqn:E0;
    [|apply Z.eqb_neq in E0; destruct env as [[] [] []]];
    cbn [negb ioremap_ok kmalloc_ok copy_user_ok ret ubuf calls length];
    rewrite ?length_read_bytes;
    (split; [lia|split; [lia|intros ->; try (repeat split; reflexivity); lia]]).
Qed.

Lemma pmem_read_bounded_witness :
  let r := pmem_read all_ok small_region ramp_mem 9 4 in
  ret r = 0 /\ ubuf r = [] /\ calls r = [].
Proof.
  pose proof (pmem_read_bounded all_ok small_region ramp_mem 9 4
                ltac:(by_compute) ltac:(by_compute) ltac:(by_compute))
    as (_ & _ & Hend).
  apply Hend. reflexivity.
Defined.
